(** * Face-swap workspace: session state, batch pipeline and preference store

    A shallow embedding of the application core:
    - [types.ts]: the data model;
    - [services/storageService.ts]: the single-key preference store;
    - [App.tsx]: the source-identity updater, the restore and auto-save
      effects and the batch processor [runBatchProcessor].

    React state is modelled by explicit state passing.  An [async] function
    is modelled as a coroutine: it runs to its next [await], and is resumed by
    an event; between two resumptions other events (user actions, other
    coroutines) may run.  A closure created during a render keeps the values
    of that render: the coroutine record stores them. *)

From Stdlib Require Import List String ZArith QArith Bool Arith Lia.
From Stdlib Require Import Ascii DecimalString DecimalNat.
Import ListNotations.
Local Close Scope Q_scope.
Local Open Scope string_scope.
Local Open Scope list_scope.

(* ================================================================== *)
(** ** Data model ([types.ts]) *)

Module Analysis.
(** [FaceAnalysisResult].  JSON numbers are kept as rationals; the values
    of [landmarks] (typed [any]) are kept as their JSON text.  The session
    code stores and copies this record and never inspects it. *)
Record Lighting := mkLighting {
  direction : string;
  intensity : Q;
  color_temperature : string
}.
Record t := mk {
  face_box : list Q;
  landmarks : list (string * string);
  skin_tone : string;
  undertone : string;
  lighting : Lighting;
  face_scale_ratio : Q;
  confidence : Q
}.
End Analysis.
Definition FaceAnalysisResult := Analysis.t.

Inductive FaceScaleLock := auto | fixed.

Record SwapSettings := mkSettings {
  preserveHair : bool;
  matchSkinTone : bool;
  matchLighting : bool;
  faceScaleLock : FaceScaleLock;
  skinSmoothness : Z;
  outputQuality : Z
}.

(** [constants.ts] *)
Definition DEFAULT_SWAP_SETTINGS : SwapSettings :=
  mkSettings true true true auto 5%Z 90%Z.

Inductive Status := idle | processing | completed | failed.

Definition Status_eqb (a b : Status) : bool :=
  match a, b with
  | idle, idle | processing, processing
  | completed, completed | failed, failed => true
  | _, _ => false
  end.

Module Img.
(** [ProcessedImage]: optional fields are [option]s. *)
Record t := mk {
  id : string;
  originalUrl : string;
  processedUrl : option string;
  status : Status;
  error : option string;
  analysis : option FaceAnalysisResult
}.

(** [{ ...t, status: s }] *)
Definition with_status (s : Status) (x : t) : t :=
  mk (id x) (originalUrl x) (processedUrl x) s (error x) (analysis x).
(** [{ ...t, status: 'completed', processedUrl: u }] *)
Definition with_completed (u : string) (x : t) : t :=
  mk (id x) (originalUrl x) (Some u) completed (error x) (analysis x).
(** [{ ...t, status: 'failed', error: m }] *)
Definition with_failed (m : string) (x : t) : t :=
  mk (id x) (originalUrl x) (processedUrl x) failed (Some m) (analysis x).
(** The object literal of [handleTargetSelect]. *)
Definition fresh (i url : string) : t :=
  mk i url None idle None None.
End Img.
Definition ProcessedImage := Img.t.

Module Session.
(** [AppSessionState] as it is found in the store.  [types.ts] declares
    [sourceFace] (one image); [App.tsx] writes and reads [sourceFaces];
    [App.tsx] guards every field it reads with [||], so each may be
    missing.  Here and below a key that is missing and a key whose value is
    [undefined] are both [None]. *)
Record t := mk {
  targets : option (list ProcessedImage);
  sourceFace : option string;
  sourceFaces : option (list string);
  analysis : option FaceAnalysisResult
}.
End Session.
Definition AppSessionState := Session.t.

Module Bookmark.
(** The value of [last_used_source]: [types.ts] declares [image];
    [App.tsx] also accepts [images]. *)
Record t := mk {
  image : option string;
  images : option (list string);
  analysis : FaceAnalysisResult;
  timestamp : Z
}.
End Bookmark.

Module Prefs.
(** [UserPreferences]: both keys are optional. *)
Record t := mk {
  last_used_source : option Bookmark.t;
  session_state : option AppSessionState
}.
(** [{}] *)
Definition empty : t := mk None None.

(** [Partial<UserPreferences>]: for each key, [None] when the object has no
    such key, [Some v] when it has the key with value [v] ([v = None] is a
    key whose value is [undefined]). *)
Record partial := mkPartial {
  p_last_used_source : option (option Bookmark.t);
  p_session_state : option (option AppSessionState)
}.

(** One key of [{ ...current, ...partialPrefs }]. *)
Definition spread_key {A} (cur : option A) (upd : option (option A)) : option A :=
  match upd with
  | Some v => v
  | None => cur
  end.

(** [{ ...current, ...partialPrefs }] *)
Definition spread (current : t) (partialPrefs : partial) : t :=
  mk (spread_key (last_used_source current) (p_last_used_source partialPrefs))
     (spread_key (session_state current) (p_session_state partialPrefs)).
End Prefs.
Definition UserPreferences := Prefs.t.

(* ================================================================== *)
(** ** Preference store ([services/storageService.ts]) *)

Module Storage.
(** The object store holds at most one value, under the fixed key
    ['user_settings']. *)
Definition Db := option UserPreferences.

(** What the three IndexedDB requests of one call do: [None] when the
    request succeeds, [Some e] when it fails with error [e]. *)
Record Faults := mkFaults {
  open_error : option string;
  get_error : option string;
  put_error : option string
}.
Definition no_faults : Faults := mkFaults None None None.

(** How a promise settles. *)
Inductive Settled (A : Type) :=
| Resolved (a : A)
| Rejected (e : string).
Arguments Resolved {A} a.
Arguments Rejected {A} e.

(** The result of one call: the store afterwards, how the returned promise
    settles, and the lines the call wrote to the console. *)
Record Result (A : Type) := mkResult {
  db_after : Db;
  settled : Settled A;
  console : list string
}.
Arguments mkResult {A}.
Arguments db_after {A}.
Arguments settled {A}.
Arguments console {A}.

(** [updatePreferences].  The [catch] block covers [await openDB()] only:
    the promise built around the get and put requests is returned without
    being awaited, so its rejection passes the [catch] by.  A failed put
    leaves the stored value as it was. *)
Definition updatePreferences (f : Faults) (partialPrefs : Prefs.partial)
    (db : Db) : Result unit :=
  match open_error f with
  | Some err => mkResult db (Rejected err) ["IndexedDB Update Error:"]
  | None =>
    match get_error f with
    | Some err => mkResult db (Rejected err) []
    | None =>
      let current := match db with Some r => r | None => Prefs.empty end in
      let updated := Prefs.spread current partialPrefs in
      match put_error f with
      | Some err => mkResult db (Rejected err) []
      | None => mkResult (Some updated) (Resolved tt) []
      end
    end
  end.

(** [loadPreferences]: a failure to open the database is logged and turned
    into [null]; a failed get rejects the returned promise. *)
Definition loadPreferences (f : Faults) (db : Db)
    : Result (option UserPreferences) :=
  match open_error f with
  | Some err => mkResult db (Resolved None) ["IndexedDB Load Error:"]
  | None =>
    match get_error f with
    | Some err => mkResult db (Rejected err) []
    | None => mkResult db (Resolved db) []
    end
  end.
End Storage.

(* ================================================================== *)
(** ** Source identity sequence ([App.tsx], [handleSourceSelect]) *)

Module Source.
(** [prev.includes(base64)] *)
Definition includes (prev : list string) (x : string) : bool :=
  existsb (String.eqb x) prev.

(** The updater passed to [setSourceFaces] in [handleSourceSelect]. *)
Definition addImage (base64 : string) (prev : list string) : list string :=
  if includes prev base64 then prev
  else if (3 <=? List.length prev)%nat then prev
  else prev ++ [base64].
End Source.

(* ================================================================== *)
(** ** Restore and auto-save ([App.tsx], the two effects) *)

Module Persist.
Import Storage.

(** The state variables the two effects read and write.  The banner text
    [autoRestoreMsg] and the spinners are display state and are left out. *)
Record State := mkState {
  isStorageLoaded : bool;
  sourceFaces : list string;
  targets : list ProcessedImage;
  analysis : option FaceAnalysisResult
}.

(** The [useState] defaults. *)
Definition initial : State := mkState false [] [] None.

(** [x || []] for an array [x]: every array is truthy. *)
Definition or_empty {A} (x : option (list A)) : list A :=
  match x with
  | Some l => l
  | None => []
  end.

(** The branch [if (prefs.session_state)] of [init]. *)
Definition restore_session (s : AppSessionState) (st : State) : State :=
  mkState (isStorageLoaded st)
          (or_empty (Session.sourceFaces s))
          (or_empty (Session.targets s))
          (Session.analysis s).

(** The branch [else if (prefs.last_used_source)] of [init]: [images] if
    the field is there, else [[image]] if that is a non-empty string, else
    the source sequence stays as it is. *)
Definition restore_bookmark (b : Bookmark.t) (st : State) : State :=
  let faces :=
    match Bookmark.images b with
    | Some l => l
    | None =>
      match Bookmark.image b with
      | Some i => if String.eqb i "" then sourceFaces st else [i]
      | None => sourceFaces st
      end
    end in
  mkState (isStorageLoaded st) faces (targets st) (Some (Bookmark.analysis b)).

(** The [try] block of [init], after [await loadPreferences()] resolved. *)
Definition apply_prefs (prefs : option UserPreferences) (st : State) : State :=
  match prefs with
  | None => st
  | Some p =>
    match Prefs.session_state p with
    | Some s => restore_session s st
    | None =>
      match Prefs.last_used_source p with
      | Some b => restore_bookmark b st
      | None => st
      end
    end
  end.

Definition set_loaded (st : State) : State :=
  mkState true (sourceFaces st) (targets st) (analysis st).

(** [init] from the point where the promise of [loadPreferences] settles:
    [try] / [catch] (one warning on the console) / [finally].  The result
    is the new state and the console lines; [init] itself never throws. *)
Definition init (loaded : Settled (option UserPreferences)) (st : State)
    : State * list string :=
  match loaded with
  | Resolved prefs => (set_loaded (apply_prefs prefs st), [])
  | Rejected _ => (set_loaded st, ["Failed to load user preferences"])
  end.

(** The object literal written by the auto-save timer:
    [{ session_state: { targets, sourceFaces, analysis: analysis || undefined } }]. *)
Definition snapshot (st : State) : Prefs.partial :=
  Prefs.mkPartial None
    (Some (Some (Session.mk (Some (targets st)) None
                            (Some (sourceFaces st)) (analysis st)))).

(** The auto-save effect for one render: nothing before the store is
    loaded, otherwise a timer whose callback holds this render's values. *)
Definition autosave_effect (st : State) : option Prefs.partial :=
  if isStorageLoaded st then Some (snapshot st) else None.

(** What an observer of the component sees, in order. *)
Inductive Obs :=
| LoadSettled
| Console (line : string)
| Write (p : Prefs.partial) (r : Settled unit)
| UnhandledRejection (e : string).

(** The component and its surroundings: the React state, the store, the
    promise of [loadPreferences] while [init] awaits it, the pending
    auto-save timer (its callback's argument) and the observations. *)
Record World := mkWorld {
  st : State;
  db : Db;
  pendingLoad : option (Settled (option UserPreferences));
  saveTimer : option Prefs.partial;
  trace : list Obs
}.

Inductive Event :=
| LoadSettles
| SetState (faces : list string) (ts : list ProcessedImage)
           (a : option FaceAnalysisResult)
| TimerFires (f : Faults).

(** Mount: both effects run once.  [init] calls [loadPreferences] and
    awaits it; the auto-save effect sees [isStorageLoaded = false] and
    returns. *)
Definition mount (f : Faults) (db0 : Db) : World :=
  let r := loadPreferences f db0 in
  mkWorld initial (db_after r) (Some (settled r))
          (autosave_effect initial) (map Console (console r)).

Definition rejection (r : Settled unit) : list Obs :=
  match r with
  | Resolved _ => []
  | Rejected e => [UnhandledRejection e]
  end.

(** One event.  Each state change re-renders: the cleanup of the previous
    auto-save effect clears its timer and the effect runs again.  The timer
    callback calls [updatePreferences] and drops the promise. *)
Definition step (e : Event) (w : World) : World :=
  match e with
  | LoadSettles =>
    match pendingLoad w with
    | None => w
    | Some o =>
      let '(st', lines) := init o (st w) in
      mkWorld st' (db w) None (autosave_effect st')
              (trace w ++ map Console lines ++ [LoadSettled])
    end
  | SetState faces ts a =>
    let st' := mkState (isStorageLoaded (st w)) faces ts a in
    mkWorld st' (db w) (pendingLoad w) (autosave_effect st') (trace w)
  | TimerFires f =>
    match saveTimer w with
    | None => w
    | Some p =>
      let r := updatePreferences f p (db w) in
      mkWorld (st w) (db_after r) (pendingLoad w) None
              (trace w ++ map Console (console r)
                       ++ [Write p (settled r)] ++ rejection (settled r))
    end
  end.

Definition exec (evs : list Event) (w : World) : World :=
  fold_left (fun w e => step e w) evs w.

(** Restore a stored record at startup, then let the first auto-save
    write, with a store that works: the record stored afterwards. *)
Definition persist_restore (r : UserPreferences) : Db :=
  db (exec [LoadSettles; TimerFires no_faults] (mount no_faults (Some r))).
End Persist.

(* ================================================================== *)
(** ** Batch pipeline ([App.tsx], [runBatchProcessor]) *)

Module Batch.
(** What [performFaceSwap] threw: an [Error] with its message, or a value
    that is not an [Error]. *)
Inductive JsError :=
| ErrorObject (message : string)
| OtherValue.

(** How the promise of [performFaceSwap] settles. *)
Inductive SwapOutcome :=
| Generated (dataUrl : string)
| Thrown (e : JsError).

(** The arguments of one call of [performFaceSwap]. *)
Record Call := mkCall {
  call_sources : list string;
  call_target : string;
  call_settings : SwapSettings
}.

(** The React state the pipeline touches.  [calls] is not React state: it
    is the history of the engine calls dispatched so far, oldest first. *)
Record App := mkApp {
  sourceFaces : list string;
  targets : list ProcessedImage;
  settings : SwapSettings;
  isProcessingBatch : bool;
  calls : list Call
}.

(** [setTargets(prev => f(prev))] *)
Definition setTargets (f : list ProcessedImage -> list ProcessedImage)
    (a : App) : App :=
  mkApp (sourceFaces a) (f (targets a)) (settings a)
        (isProcessingBatch a) (calls a).

Definition setIsProcessingBatch (b : bool) (a : App) : App :=
  mkApp (sourceFaces a) (targets a) (settings a) b (calls a).

Definition setSettings (f : SwapSettings -> SwapSettings) (a : App) : App :=
  mkApp (sourceFaces a) (targets a) (f (settings a))
        (isProcessingBatch a) (calls a).

Definition dispatch (c : Call) (a : App) : App :=
  mkApp (sourceFaces a) (targets a) (settings a)
        (isProcessingBatch a) (calls a ++ [c]).

(** [t => t.id === id ? g(t) : t] *)
Definition on_id (i : string) (g : ProcessedImage -> ProcessedImage)
    (t : ProcessedImage) : ProcessedImage :=
  if String.eqb (Img.id t) i then g t else t.

(** [targets.filter(t => t.status === 'idle').map(t => t.id)] *)
Definition idle_ids (ts : list ProcessedImage) : list string :=
  map Img.id (filter (fun t => Status_eqb (Img.status t) idle) ts).

(** [targets.find(t => t.id === id)?.originalUrl], with [None] for every
    falsy result ([undefined] and the empty string): the value tested by
    [if (!targetUrl) continue]. *)
Definition targetUrl (ts : list ProcessedImage) (i : string) : option string :=
  match find (fun t => String.eqb (Img.id t) i) ts with
  | Some t => if String.eqb (Img.originalUrl t) "" then None
              else Some (Img.originalUrl t)
  | None => None
  end.

(** [error instanceof Error ? error.message : 'Error'] *)
Definition error_message (e : JsError) : string :=
  match e with
  | ErrorObject m => m
  | OtherValue => "Error"
  end.

(** Where a running [runBatchProcessor] is suspended. *)
Inductive Pc :=
| AwaitSwap (i : string)
| AwaitPause
| Returned.

(** A call of [runBatchProcessor] in progress: the values of [sourceFaces],
    [targets] and [settings] in the render whose closure was called, the
    identifiers of [idleIds] the [for] loop has not reached yet, and the
    suspension point. *)
Record Run := mkRun {
  cl_sourceFaces : list string;
  cl_targets : list ProcessedImage;
  cl_settings : SwapSettings;
  todo : list string;
  pc : Pc
}.

Definition at_pc (r : Run) (ids : list string) (p : Pc) : Run :=
  mkRun (cl_sourceFaces r) (cl_targets r) (cl_settings r) ids p.

(** The [for] loop from the head of an iteration to the next [await]:
    mark the item, look its address up in the closure's [targets],
    [continue] when that is falsy, else call the engine.  When the
    identifiers are exhausted the function clears the flag and returns. *)
Fixpoint loop (r : Run) (ids : list string) (a : App) : App * Run :=
  match ids with
  | [] => (setIsProcessingBatch false a, at_pc r [] Returned)
  | i :: rest =>
    let a1 := setTargets (map (on_id i (Img.with_status processing))) a in
    match targetUrl (cl_targets r) i with
    | None => loop r rest a1
    | Some url =>
      (dispatch (mkCall (cl_sourceFaces r) url (cl_settings r)) a1,
       at_pc r rest (AwaitSwap i))
    end
  end.

(** A click on "Run Batch": the closure of the current render is called
    and runs to its first [await] (or returns at once). *)
Definition runBatchProcessor (a : App) : App * Run :=
  let r := mkRun (sourceFaces a) (targets a) (settings a) [] Returned in
  match sourceFaces a with
  | [] => (a, r)
  | _ :: _ => loop r (idle_ids (targets a)) (setIsProcessingBatch true a)
  end.

(** What wakes a suspended run. *)
Inductive Wake :=
| SwapSettles (o : SwapOutcome)
| PauseEnds.

(** The run from one [await] to the next.  A wake-up the run is not
    waiting for does nothing. *)
Definition resume (w : Wake) (ar : App * Run) : App * Run :=
  let '(a, r) := ar in
  match w, pc r with
  | SwapSettles (Generated swappedImage), AwaitSwap i =>
    (setTargets (map (on_id i (Img.with_completed swappedImage))) a,
     at_pc r (todo r) AwaitPause)
  | SwapSettles (Thrown e), AwaitSwap i =>
    (setTargets (map (on_id i (Img.with_failed (error_message e)))) a,
     at_pc r (todo r) AwaitPause)
  | PauseEnds, AwaitPause => loop r (todo r) a
  | _, _ => (a, r)
  end.

(** The five controls of the side bar. *)
Inductive SettingsEdit :=
| SetPreserveHair (v : bool)
| SetMatchSkinTone (v : bool)
| SetMatchLighting (v : bool)
| SetSkinSmoothness (v : Z)
| SetOutputQuality (v : Z).

(** [s => ({ ...s, field: v })] *)
Definition edit (e : SettingsEdit) (s : SwapSettings) : SwapSettings :=
  match e with
  | SetPreserveHair v =>
    mkSettings v (matchSkinTone s) (matchLighting s) (faceScaleLock s)
               (skinSmoothness s) (outputQuality s)
  | SetMatchSkinTone v =>
    mkSettings (preserveHair s) v (matchLighting s) (faceScaleLock s)
               (skinSmoothness s) (outputQuality s)
  | SetMatchLighting v =>
    mkSettings (preserveHair s) (matchSkinTone s) v (faceScaleLock s)
               (skinSmoothness s) (outputQuality s)
  | SetSkinSmoothness v =>
    mkSettings (preserveHair s) (matchSkinTone s) (matchLighting s)
               (faceScaleLock s) v (outputQuality s)
  | SetOutputQuality v =>
    mkSettings (preserveHair s) (matchSkinTone s) (matchLighting s)
               (faceScaleLock s) (skinSmoothness s) v
  end.

(** What the user can do to targets and settings at any time. *)
Inductive Action :=
| AddTarget (newId url : string)
| RemoveTarget (i : string)
| EditSettings (e : SettingsEdit).

(** The updaters of [handleTargetSelect], of the remove button and of the
    controls, on the list of targets ... *)
Definition act_targets (u : Action) (ts : list ProcessedImage)
    : list ProcessedImage :=
  match u with
  | AddTarget newId url => ts ++ [Img.fresh newId url]
  | RemoveTarget i => filter (fun p => negb (String.eqb (Img.id p) i)) ts
  | EditSettings _ => ts
  end.

(** ... and on the whole state. *)
Definition act (u : Action) (a : App) : App :=
  match u with
  | EditSettings e => setSettings (edit e) a
  | _ => setTargets (act_targets u) a
  end.

(** *** One run and the user *)

Inductive Event :=
| User (u : Action)
| Wakes (w : Wake).

Definition step (e : Event) (ar : App * Run) : App * Run :=
  match e with
  | User u => (act u (fst ar), snd ar)
  | Wakes w => resume w ar
  end.

Definition exec (evs : list Event) (ar : App * Run) : App * Run :=
  fold_left (fun ar e => step e ar) evs ar.

(** The user's part of a list of events. *)
Fixpoint user_only (evs : list Event) (ts : list ProcessedImage)
    : list ProcessedImage :=
  match evs with
  | [] => ts
  | User u :: evs' => user_only evs' (act_targets u ts)
  | Wakes _ :: evs' => user_only evs' ts
  end.

(** *** Any number of runs and the user *)

(** [runBatchProcessor] has no guard of its own against a call made while an
    earlier call is suspended, and the design notes state that runs may
    overlap; whether the button passes a click on while [isProcessingBatch]
    is set is decided in the [Button] component, which is not among the
    sources.  A [Click] is therefore possible at any time. *)
Inductive SysEvent :=
| Does (u : Action)
| Click
| WakesRun (k : nat) (w : Wake).

Fixpoint replace_nth {A} (k : nat) (x : A) (l : list A) : list A :=
  match l, k with
  | [], _ => []
  | _ :: l', O => x :: l'
  | y :: l', S k' => y :: replace_nth k' x l'
  end.

(** The state of the system: the React state and every call of
    [runBatchProcessor] made so far, oldest first. *)
Definition Sys := (App * list Run)%type.

Definition sys_step (e : SysEvent) (s : Sys) : Sys :=
  let '(a, runs) := s in
  match e with
  | Does u => (act u a, runs)
  | Click =>
    let '(a', r) := runBatchProcessor a in (a', runs ++ [r])
  | WakesRun k w =>
    match nth_error runs k with
    | Some r =>
      let '(a', r') := resume w (a, r) in (a', replace_nth k r' runs)
    | None => s
    end
  end.

Definition sys_exec (evs : list SysEvent) (s : Sys) : Sys :=
  fold_left (fun s e => sys_step e s) evs s.
End Batch.

(* ================================================================== *)
(** ** Sample values *)

Module Sample.
Definition analysis : FaceAnalysisResult :=
  Analysis.mk [] [] "Medium" "Warm" (Analysis.mkLighting "left" 0%Q "5600K")
              0%Q 1%Q.

(** A bookmark in the shape [types.ts] declares: one image. *)
Definition bookmark : Bookmark.t :=
  Bookmark.mk (Some "data:image/png;base64,AAAA") None analysis 1700000000000%Z.

(** A stored record that holds a bookmark and no session. *)
Definition bookmark_only : UserPreferences :=
  Prefs.mk (Some bookmark) None.

(** A session as the auto-save writes it: two idle targets, one source. *)
Definition session : AppSessionState :=
  Session.mk (Some [Img.fresh "a" "ua"; Img.fresh "b" "ub"]) None
             (Some ["s"]) None.

Definition with_session : UserPreferences :=
  Prefs.mk (Some bookmark) (Some session).

(** A store whose put request fails for lack of space. *)
Definition quota : Storage.Faults :=
  Storage.mkFaults None None (Some "QuotaExceededError").

(** A store whose get request fails. *)
Definition unreadable : Storage.Faults :=
  Storage.mkFaults None (Some "UnknownError") None.

(** The React state of a page with that session. *)
Definition app : Batch.App :=
  Batch.mkApp ["s"] [Img.fresh "a" "ua"; Img.fresh "b" "ub"]
              DEFAULT_SWAP_SETTINGS false [].
End Sample.

(* ================================================================== *)
(** ** Vocabulary of the properties *)

(** A field is present. *)
Definition present {A} (x : option A) : Prop := x <> None.

(** The invariant of a target item: [processedUrl] goes with [completed],
    [error] goes with [failed]. *)
Definition item_invariant (t : ProcessedImage) : Prop :=
  (present (Img.processedUrl t) <-> Img.status t = completed) /\
  (present (Img.error t) <-> Img.status t = failed).

(** An item the pipeline has not finished: no result, no error. *)
Definition blank (t : ProcessedImage) : Prop :=
  Img.processedUrl t = None /\ Img.error t = None /\
  (Img.status t = idle \/ Img.status t = processing).

Definition terminal (s : Status) : Prop := s = completed \/ s = failed.

(** The stored session has the shape the auto-save writes. *)
Definition current_shape (r : UserPreferences) : Prop :=
  exists ts fs a,
    Prefs.session_state r = Some (Session.mk (Some ts) None (Some fs) a).

(** Every write in a trace comes after the end of the initial load. *)
Definition writes_follow_load (tr : list Persist.Obs) : Prop :=
  forall pre p r post,
    tr = pre ++ Persist.Write p r :: post -> In Persist.LoadSettled pre.

Definition has_write (tr : list Persist.Obs) : Prop :=
  exists p r, In (Persist.Write p r) tr.

(** A request of a read fails. *)
Definition read_fails (f : Storage.Faults) : Prop :=
  Storage.open_error f <> None \/ Storage.get_error f <> None.

(** The error a call of [updatePreferences] meets first, if any. *)
Definition write_error (f : Storage.Faults) : option string :=
  match Storage.open_error f, Storage.get_error f, Storage.put_error f with
  | Some e, _, _ => Some e
  | None, Some e, _ => Some e
  | None, None, o => o
  end.

Module PersistSpec.
Import Storage Persist.

(** The invariant of the component, for a store that held [db0] at mount. *)
Definition inv (db0 : Db) (w : World) : Prop :=
  writes_follow_load (trace w) /\
  (isStorageLoaded (st w) = true -> In LoadSettled (trace w)) /\
  (saveTimer w <> None -> isStorageLoaded (st w) = true) /\
  (~ In LoadSettled (trace w) -> db w = db0 /\ ~ has_write (trace w)).
End PersistSpec.

Module BatchSpec.
Import Batch.

(** The identifiers a run still has to finish: the one in flight and
    those the loop has not reached. *)
Definition pending (r : Run) : list string :=
  match pc r with
  | AwaitSwap i => i :: todo r
  | AwaitPause => todo r
  | Returned => []
  end.

(** [i] is not one of [W]. *)
Definition outside (W : list string) (t : ProcessedImage) : bool :=
  negb (existsb (String.eqb (Img.id t)) W).

(** Each settled swap followed by the end of the pause. *)
Definition rounds (os : list SwapOutcome) : list Event :=
  flat_map (fun o => [Wakes (SwapSettles o); Wakes PauseEnds]) os.

(** The identifiers of added targets are new. *)
Definition adds_new (ts : list ProcessedImage) (evs : list Event) : Prop :=
  forall i url, In (User (AddTarget i url)) evs -> ~ In i (map Img.id ts).

(** The state in which the component is once [init] has run on the
    outcome of the initial load. *)
Definition restored (o : Storage.Settled (option UserPreferences)) : Sys :=
  let st := fst (Persist.init o Persist.initial) in
  (mkApp (Persist.sourceFaces st) (Persist.targets st)
         DEFAULT_SWAP_SETTINGS false [], []).

(** An updater that leaves the identifier alone. *)
Definition keeps_id (g : ProcessedImage -> ProcessedImage) : Prop :=
  forall t, Img.id (g t) = Img.id t.

(** A call made with the settings and sources of the state [a0]. *)
Definition from_closure (a0 : App) (c : Call) : Prop :=
  call_settings c = settings a0 /\ call_sources c = sourceFaces a0.

(** The run was started in [a0] and every call made since carries the
    values of [a0]. *)
Definition calls_inv (a0 : App) (ar : App * Run) : Prop :=
  cl_settings (snd ar) = settings a0 /\
  cl_sourceFaces (snd ar) = sourceFaces a0 /\
  exists new, calls (fst ar) = calls a0 ++ new /\ Forall (from_closure a0) new.

(** The invariant of one run over the worklist [W], where [tu] is what the
    user's actions alone make of the targets. *)
Definition run_inv (W : list string) (tu : list ProcessedImage)
    (ar : App * Run) : Prop :=
  (forall i, In i (pending (snd ar)) ->
             In i W /\ exists url, targetUrl (cl_targets (snd ar)) i = Some url) /\
  (forall t, In t (targets (fst ar)) -> In (Img.id t) W ->
             ~ In (Img.id t) (pending (snd ar)) -> terminal (Img.status t)) /\
  filter (outside W) (targets (fst ar)) = filter (outside W) tu.

(** The items a run still has to finish are blank. *)
Definition run_ok (a : App) (r : Run) : Prop :=
  NoDup (pending r) /\
  forall t, In t (targets a) -> In (Img.id t) (pending r) -> blank t.

(** The invariant of the system while runs do not overlap. *)
Definition sys_inv (s : Sys) : Prop :=
  Forall item_invariant (targets (fst s)) /\
  NoDup (map Img.id (targets (fst s))) /\
  forall k r, nth_error (snd s) k = Some r -> pc r <> Returned ->
    run_ok (fst s) r /\
    forall k' r', nth_error (snd s) k' = Some r' -> pc r' <> Returned -> k' = k.

Definition quiet (runs : list Run) : Prop :=
  forall r, In r runs -> pc r = Returned.

(** A schedule in which new targets get unused identifiers and "Run Batch"
    is clicked only when no run is in progress. *)
Fixpoint admissible (s : Sys) (evs : list SysEvent) : Prop :=
  match evs with
  | [] => True
  | e :: evs' =>
    match e with
    | Does (AddTarget i _) => ~ In i (map Img.id (targets (fst s)))
    | Click => quiet (snd s)
    | _ => True
    end /\ admissible (sys_step e s) evs'
  end.
End BatchSpec.

(* ================================================================== *)
(** ** Source identity handlers ([App.tsx], [handleSourceSelect],
       [removeSourceImage], the reset button) *)

Module SourceOps.
Import Source.

(** What the handler reads of a selected file: the digest computed by
    [generateFileHash] and the data URL given by the [FileReader]. *)
Record File := mkFile {
  file_hash : string;
  file_dataUrl : string
}.

(** How the promise of [analyzeFace] settles. *)
Inductive AnalysisOutcome :=
| Analyzed (result : FaceAnalysisResult)
| AnalysisFailed.

(** The state the handlers touch.  [analysisCache] is the module-level
    [Map]; [analyzed] and [errors] are not state: they are the arguments of
    the calls of [analyzeFace] made so far and the lines written with
    [console.error]. *)
Record State := mkState {
  sourceFaces : list string;
  analysis : option FaceAnalysisResult;
  isAnalyzing : bool;
  analysisCache : string -> option FaceAnalysisResult;
  analyzed : list string;
  errors : list string
}.

(** [analysisCache.set(hash, result)] *)
Definition cache_set (hash : string) (result : FaceAnalysisResult)
    (c : string -> option FaceAnalysisResult) : string -> option FaceAnalysisResult :=
  fun h => if String.eqb h hash then Some result else c h.

(** [newFaces.splice(index, 1)] on a copy of the array. *)
Fixpoint splice1 {A} (index : nat) (l : list A) : list A :=
  match l, index with
  | [], _ => []
  | _ :: l', O => l'
  | x :: l', S k => x :: splice1 k l'
  end.

(** [removeSourceImage] *)
Definition removeSourceImage (index : nat) (s : State) : State :=
  mkState (splice1 index (sourceFaces s))
          (if Nat.eqb index 0 then None else analysis s)
          (isAnalyzing s) (analysisCache s) (analyzed s) (errors s).

(** [onClear]: [setSourceFaces([]); setAnalysis(null)] *)
Definition onClear (s : State) : State :=
  mkState [] None (isAnalyzing s) (analysisCache s) (analyzed s) (errors s).

(** [reader.onload] up to its [await].  [seen] is the [sourceFaces] of the
    render whose handler was called.  The result says whether the handler is
    now waiting for [analyzeFace]. *)
Definition onload (seen : list string) (f : File) (s : State) : State * bool :=
  let faces := addImage (file_dataUrl f) (sourceFaces s) in
  match seen with
  | _ :: _ =>
    (mkState faces (analysis s) (isAnalyzing s) (analysisCache s)
             (analyzed s) (errors s), false)
  | [] =>
    match analysisCache s (file_hash f) with
    | Some cached =>
      (mkState faces (Some cached) (isAnalyzing s) (analysisCache s)
               (analyzed s) (errors s), false)
    | None =>
      (mkState faces None true (analysisCache s)
               (analyzed s ++ [file_dataUrl f]) (errors s), true)
    end
  end.

(** The rest of [reader.onload], once [analyzeFace] has settled:
    [try] / [catch] / [finally]. *)
Definition analysis_settles (f : File) (o : AnalysisOutcome) (s : State) : State :=
  match o with
  | Analyzed result =>
    mkState (sourceFaces s) (Some result) false
            (cache_set (file_hash f) result (analysisCache s))
            (analyzed s) (errors s)
  | AnalysisFailed =>
    mkState (sourceFaces s) (analysis s) false (analysisCache s)
            (analyzed s) (errors s ++ ["Analysis failed"])
  end.

(** One selection with nothing in between: the handler of the current
    render runs, and the analyzer, if called, settles with [o]. *)
Definition select (f : File) (o : AnalysisOutcome) (s : State) : State :=
  let '(s1, waiting) := onload (sourceFaces s) f s in
  if waiting then analysis_settles f o s1 else s1.

Definition select_all (fs : list (File * AnalysisOutcome)) (s : State) : State :=
  fold_left (fun s fo => select (fst fo) (snd fo) s) fs s.

(** What the user can do to the source identity, one thing at a time. *)
Inductive Op :=
| Select (f : File) (o : AnalysisOutcome)
| Remove (index : nat)
| Clear.

Definition apply_op (op : Op) (s : State) : State :=
  match op with
  | Select f o => select f o s
  | Remove index => removeSourceImage index s
  | Clear => onClear s
  end.

Definition run_ops (ops : list Op) (s : State) : State :=
  fold_left (fun s op => apply_op op s) ops s.
End SourceOps.

(* ================================================================== *)
(** ** Engine client ([services/geminiService.ts]) *)

Module Gemini.
Import Batch.

(** [s.split(',')] *)
Fixpoint split_comma (s : string) : list string :=
  match s with
  | EmptyString => [""]
  | String c s' =>
    if Ascii.eqb c ","%char then "" :: split_comma s'
    else match split_comma s' with
         | seg :: segs => String c seg :: segs
         | [] => [String c ""]
         end
  end.

(** A string is truthy when it is there and not empty. *)
Definition truthy (s : option string) : bool :=
  match s with
  | Some (String _ _) => true
  | _ => false
  end.

(** [dataUrl.split(',')[1] || dataUrl] *)
Definition stripBase64 (dataUrl : string) : string :=
  match nth_error (split_comma dataUrl) 1 with
  | Some (String c seg) => String c seg
  | _ => dataUrl
  end.

(** [part.inlineData] of a part of the response; both fields are optional
    strings. *)
Record InlineData := mkInline {
  mimeType : option string;
  data : option string
}.

(** A part of the response; only [inlineData] is read. *)
Record Part := mkPart {
  inlineData : option InlineData
}.

(** [`${x}`] for an optional string. *)
Definition template (x : option string) : string :=
  match x with
  | Some s => s
  | None => "undefined"
  end.

(** [`data:${mimeType};base64,${data}`] *)
Definition data_url (mime : option string) (payload : string) : string :=
  "data:" ++ template mime ++ ";base64," ++ payload.

(** The [for] loop over the parts: the first part with inline data whose
    [data] is truthy gives the result. *)
Fixpoint first_image (parts : list Part) : option string :=
  match parts with
  | [] => None
  | p :: rest =>
    match inlineData p with
    | Some d =>
      match data d with
      | Some (String c s) => Some (data_url (mimeType d) (String c s))
      | _ => first_image rest
      end
    | None => first_image rest
    end
  end.

(** What the call of [client.models.generateContent] gives: a rejection, or
    a response whose [candidates?.[0]?.content?.parts] is [parts] ([None]
    when a link of that chain is missing). *)
Inductive Reply :=
| Failed (e : JsError)
| Responded (parts : option (list Part)).

(** [performFaceSwap], as a function of [process.env.API_KEY] and of the
    reply of the service: [getClient] throws without a key; otherwise the
    result is read off the reply.  The request itself is not modelled. *)
Definition performFaceSwap (apiKey : option string) (reply : Reply) : SwapOutcome :=
  if truthy apiKey then
    match reply with
    | Failed e => Thrown e
    | Responded parts =>
      match first_image (match parts with Some ps => ps | None => [] end) with
      | Some url => Generated url
      | None => Thrown (ErrorObject "No image generated in response")
      end
    end
  else Thrown (ErrorObject "API Key not found in environment variables").
End Gemini.

(* ================================================================== *)
(** ** Archive of the results ([App.tsx], [downloadAll]) *)

Module Download.
Import Gemini.

(** [t.status === 'completed' && t.processedUrl] *)
Definition has_result (t : ProcessedImage) : bool :=
  Status_eqb (Img.status t) completed && truthy (Img.processedUrl t).

(** [`swap_${index + 1}.png`] *)
Definition entry_name (index : nat) : string :=
  "swap_" ++ NilEmpty.string_of_uint (Nat.to_uint (index + 1)) ++ ".png".

(** One file of the archive: its name and the second argument of
    [folder.file], [target.processedUrl.split(',')[1]] ([None] when the
    address has no comma). *)
Definition Entry := (string * option string)%type.

(** [completed.forEach((target, index) => ...)], from [index] on. *)
Fixpoint entries_from (index : nat) (completedItems : list ProcessedImage)
    : list Entry :=
  match completedItems with
  | [] => []
  | target :: rest =>
    match Img.processedUrl target with
    | Some (String c s) =>
      (entry_name index, nth_error (split_comma (String c s)) 1)
      :: entries_from (S index) rest
    | _ => entries_from (S index) rest
    end
  end.

(** [downloadAll]: [None] when it returns before building an archive,
    otherwise the files put into the archive, in order. *)
Definition downloadAll (targets : list ProcessedImage) : option (list Entry) :=
  match filter has_result targets with
  | [] => None
  | completedItems => Some (entries_from 0 completedItems)
  end.
End Download.

(* ================================================================== *)
(** ** Bookmark of the last source ([saveSourceFaceToStorage], in the
       single-source variant of the component) *)

Module BookmarkSave.
Import Storage.

(** [saveSourceFaceToStorage(image, analysisData)], with [now] for
    [Date.now()]: the update is awaited inside [try]; a rejection is caught
    and reported with one warning. *)
Definition saveSourceFaceToStorage (now : Z) (f : Faults) (image : string)
    (analysisData : FaceAnalysisResult) (db : Db) : Result unit :=
  let r := updatePreferences f
             (Prefs.mkPartial
                (Some (Some (Bookmark.mk (Some image) None analysisData now)))
                None) db in
  match settled r with
  | Resolved _ => r
  | Rejected _ =>
    mkResult (db_after r) (Resolved tt)
             (console r ++ ["Failed to save user preferences"])
  end.
End BookmarkSave.

(* ================================================================== *)
(** ** Further vocabulary *)

Module MoreSpec.
Import Batch BatchSpec.

(** Two partial updates made into one: the later one wins key by key. *)
Definition then_partial (p1 p2 : Prefs.partial) : Prefs.partial :=
  Prefs.mkPartial
    (match Prefs.p_last_used_source p2 with
     | Some v => Some v
     | None => Prefs.p_last_used_source p1
     end)
    (match Prefs.p_session_state p2 with
     | Some v => Some v
     | None => Prefs.p_session_state p1
     end).

(** The bookmark of a store. *)
Definition bookmark_of (db : Storage.Db) : option Bookmark.t :=
  match db with
  | Some r => Prefs.last_used_source r
  | None => None
  end.

Definition is_change (e : Persist.Event) : Prop :=
  match e with
  | Persist.SetState _ _ _ => True
  | _ => False
  end.

(** What a run never touches in an item. *)
Definition identity (t : ProcessedImage)
    : string * string * option FaceAnalysisResult :=
  (Img.id t, Img.originalUrl t, Img.analysis t).

(** The engine call the loop makes for identifier [i], if any, in a run
    started in [a0]. *)
Definition call_for (a0 : App) (i : string) : list Call :=
  match targetUrl (targets a0) i with
  | Some url => [mkCall (sourceFaces a0) url (settings a0)]
  | None => []
  end.

(** A run started in [a0] has gone through [done] of its worklist. *)
Definition progress (a0 : App) (ar : App * Run) : Prop :=
  cl_sourceFaces (snd ar) = sourceFaces a0 /\
  cl_targets (snd ar) = targets a0 /\
  cl_settings (snd ar) = settings a0 /\
  (pc (snd ar) = Returned -> todo (snd ar) = []) /\
  exists done,
    idle_ids (targets a0) = done ++ todo (snd ar) /\
    calls (fst ar) = calls a0 ++ flat_map (call_for a0) done.

(** The item shows the outcome [o] of its swap. *)
Definition shows (o : SwapOutcome) (t : ProcessedImage) : Prop :=
  match o with
  | Generated url =>
    Img.status t = completed /\ Img.processedUrl t = Some url /\
    Img.error t = None
  | Thrown e =>
    Img.status t = failed /\ Img.error t = Some (error_message e) /\
    Img.processedUrl t = None
  end.

Definition comma_free (s : string) : Prop :=
  Gemini.split_comma s = [s].

(** The updater the run applies to the item in flight when its swap
    settles with [o]. *)
Definition outcome_update (o : SwapOutcome) : ProcessedImage -> ProcessedImage :=
  match o with
  | Generated swappedImage => Img.with_completed swappedImage
  | Thrown e => Img.with_failed (error_message e)
  end.
End MoreSpec.

(* ================================================================== *)
(** ** Source identity sequence: properties *)

Module SourceFacts.
Import Source.

Lemma includes_In (prev : list string) (x : string) :
  includes prev x = true <-> In x prev.
Proof.
  unfold includes. rewrite existsb_exists. split.
  - intros [y [Hy He]]. apply String.eqb_eq in He. now subst.
  - intros H. exists x. split; [assumption | apply String.eqb_refl].
Qed.

Lemma includes_false (prev : list string) (x : string) :
  includes prev x = false <-> ~ In x prev.
Proof.
  rewrite <- includes_In. destruct (includes prev x); split; intros; easy.
Qed.

Lemma addImage_unchanged_or_appended (img : string) (prev : list string) :
  addImage img prev = prev \/
  (addImage img prev = prev ++ [img] /\ ~ In img prev /\ List.length prev < 3).
Proof.
  unfold addImage. destruct (includes prev img) eqn:Hi; [now left |].
  destruct (Nat.leb_spec 3 (List.length prev)); [now left |].
  right. split; [reflexivity |]. split; [now apply includes_false | assumption].
Qed.

Lemma addImage_keeps_invariant (img : string) (prev : list string) :
  List.length prev <= 3 -> NoDup prev ->
  List.length (addImage img prev) <= 3 /\ NoDup (addImage img prev).
Proof.
  intros Hlen Hnd.
  destruct (addImage_unchanged_or_appended img prev) as [-> | [-> [Hnin Hlt]]].
  - now split.
  - split.
    + rewrite length_app. simpl. lia.
    + apply NoDup_app; [assumption | repeat constructor; intros [] | ].
      intros x Hx [<- | []]. contradiction.
Qed.

(** C9. An insert through [addImage] leaves the sequence as it is when the
    image equals one already in it or when the sequence holds 3 images, and
    appends the image at the end otherwise; a sequence of at most 3
    distinct images stays one. *)
Theorem addImage_capacity_and_duplicates (img : string) (prev : list string) :
  List.length prev <= 3 -> NoDup prev ->
  (In img prev \/ List.length prev = 3 -> addImage img prev = prev) /\
  (~ In img prev -> List.length prev <> 3 -> addImage img prev = prev ++ [img]) /\
  List.length (addImage img prev) <= 3 /\
  NoDup (addImage img prev).
Proof.
  intros Hlen Hnd. repeat split.
  - intros [Hin | H3]; unfold addImage.
    + apply includes_In in Hin. now rewrite Hin.
    + destruct (includes prev img); [reflexivity |].
      rewrite H3. reflexivity.
  - intros Hnin Hn3. unfold addImage.
    apply includes_false in Hnin. rewrite Hnin.
    destruct (Nat.leb_spec 3 (List.length prev)); [lia | reflexivity].
  - now apply addImage_keeps_invariant.
  - now apply addImage_keeps_invariant.
Qed.

Lemma addImage_capacity_and_duplicates_witness :
  addImage "c" ["a"; "b"] = ["a"; "b"; "c"] /\
  addImage "a" ["a"; "b"] = ["a"; "b"].
Proof.
  split.
  - apply (addImage_capacity_and_duplicates "c" ["a"; "b"]).
    + simpl. lia.
    + repeat constructor; simpl; intuition congruence.
    + simpl. intuition congruence.
    + simpl. lia.
  - apply (addImage_capacity_and_duplicates "a" ["a"; "b"]).
    + simpl. lia.
    + repeat constructor; simpl; intuition congruence.
    + left. simpl. now left.
Defined.

(** Starting from the empty sequence, no series of inserts produces more
    than 3 images or a repeated one. *)
Lemma inserts_from_empty (imgs : list string) :
  let s := fold_left (fun s i => addImage i s) imgs [] in
  List.length s <= 3 /\ NoDup s.
Proof.
  cbv zeta.
  assert (G : forall imgs s, List.length s <= 3 -> NoDup s ->
            List.length (fold_left (fun s i => addImage i s) imgs s) <= 3 /\
            NoDup (fold_left (fun s i => addImage i s) imgs s)).
  { clear imgs. induction imgs as [| i imgs IH]; intros s Hl Hn; simpl.
    - now split.
    - destruct (addImage_keeps_invariant i s Hl Hn) as (Hl' & Hn').
      now apply IH. }
  apply G; [simpl; lia | constructor].
Qed.
End SourceFacts.

(* ================================================================== *)
(** ** Preference store: properties *)

Module StorageFacts.
Import Storage.

(** With a working store, one update stores the spread of the update over
    the stored record (or over [{}]). *)
Lemma update_stores_spread (p : Prefs.partial) (db : Db) :
  updatePreferences no_faults p db
  = mkResult (Some (Prefs.spread
                      (match db with Some r => r | None => Prefs.empty end) p))
             (Resolved tt) [].
Proof. reflexivity. Qed.

(** C5. Whatever the store holds, [updatePreferences({last_used_source: X})]
    followed by [updatePreferences({session_state: Y})] leaves one record
    that has [X] under [last_used_source] and [Y] under [session_state]. *)
Theorem update_then_update_keeps_both
    (db0 : Db) (X : Bookmark.t) (Y : AppSessionState) :
  let db1 := db_after (updatePreferences no_faults
                         (Prefs.mkPartial (Some (Some X)) None) db0) in
  let db2 := db_after (updatePreferences no_faults
                         (Prefs.mkPartial None (Some (Some Y))) db1) in
  db2 = Some (Prefs.mk (Some X) (Some Y)).
Proof. destruct db0 as [[l s] |]; reflexivity. Qed.

(** C10. The merge of [updatePreferences] is one level deep: a key the
    update carries gets the update's value, whole, and nothing of the value
    stored before under that key survives; a key the update does not carry
    keeps its stored value. *)
Theorem update_replaces_top_level_keys (db : Db) (p : Prefs.partial) :
  exists r',
    db_after (updatePreferences no_faults p db) = Some r' /\
    (forall v, Prefs.p_session_state p = Some v -> Prefs.session_state r' = v) /\
    (forall v, Prefs.p_last_used_source p = Some v ->
               Prefs.last_used_source r' = v) /\
    (Prefs.p_session_state p = None ->
     Prefs.session_state r'
     = Prefs.session_state (match db with Some r => r | None => Prefs.empty end)) /\
    (Prefs.p_last_used_source p = None ->
     Prefs.last_used_source r'
     = Prefs.last_used_source (match db with Some r => r | None => Prefs.empty end)).
Proof.
  rewrite update_stores_spread. eexists. split; [reflexivity |].
  destruct p as [pl ps]; simpl.
  repeat split; intros; subst; try reflexivity; congruence.
Qed.

(** A stored session with two targets, and an update whose session has no
    [targets] field: the stored targets are gone, the bookmark stays. *)
Lemma update_replaces_top_level_keys_witness :
  let old := Sample.with_session in
  let new := Session.mk None None (Some ["s2"]) None in
  exists r',
    db_after (updatePreferences no_faults
                (Prefs.mkPartial None (Some (Some new))) (Some old)) = Some r' /\
    Prefs.session_state r' = Some new /\
    Prefs.last_used_source r' = Some Sample.bookmark.
Proof.
  intros old new.
  destruct (update_replaces_top_level_keys (Some old)
              (Prefs.mkPartial None (Some (Some new))))
    as (r' & Hdb & Hs & _ & _ & Hl).
  exists r'. split; [exact Hdb |]. split.
  - apply Hs. reflexivity.
  - apply Hl. reflexivity.
Defined.

(** A failed call stores nothing. *)
Lemma failed_update_stores_nothing (f : Faults) (p : Prefs.partial) (db : Db) (e : string) :
  write_error f = Some e ->
  db_after (updatePreferences f p db) = db /\
  settled (updatePreferences f p db) = Rejected e.
Proof.
  unfold write_error, updatePreferences.
  destruct (open_error f); [intros [= ->]; now split |].
  destruct (get_error f); [intros [= ->]; now split |].
  destruct (put_error f); [intros [= ->]; now split | discriminate].
Qed.

(** A load never changes the store. *)
Lemma load_keeps_store (f : Faults) (db : Db) :
  db_after (loadPreferences f db) = db.
Proof.
  unfold loadPreferences.
  destruct (open_error f); [reflexivity |].
  destruct (get_error f); reflexivity.
Qed.
End StorageFacts.

(* ================================================================== *)
(** ** Restore and auto-save: properties *)

Module PersistFacts.
Import Storage Persist PersistSpec.

(** *** Round trip *)

(** What restore followed by the first auto-save stores. *)
Lemma persist_restore_eq (r : UserPreferences) :
  persist_restore r
  = Some (Prefs.mk (Prefs.last_used_source r)
            (Some (Session.mk
                     (Some (targets (apply_prefs (Some r) initial))) None
                     (Some (sourceFaces (apply_prefs (Some r) initial)))
                     (analysis (apply_prefs (Some r) initial))))).
Proof. reflexivity. Qed.

Lemma persist_restore_current_shape (r : UserPreferences) :
  current_shape r -> persist_restore r = Some r.
Proof.
  intros (ts & fs & a & Hs). rewrite persist_restore_eq.
  destruct r as [l s]. simpl in *. subst s. reflexivity.
Qed.

(** C6, as the code has it. For a stored record whose session has the
    shape the auto-save writes, restore followed by persist stores the same
    record again.  For every stored record, restore followed by persist
    stores a record of that shape, on which a second round changes
    nothing. *)
Theorem persist_after_restore_fixed_point (r : UserPreferences) :
  (current_shape r -> persist_restore r = Some r) /\
  (exists r', persist_restore r = Some r' /\ current_shape r' /\
              persist_restore r' = Some r').
Proof.
  split; [apply persist_restore_current_shape |].
  eexists. split; [apply persist_restore_eq |].
  assert (Hc : forall l ts fs a,
             current_shape (Prefs.mk l (Some (Session.mk (Some ts) None (Some fs) a)))).
  { intros. unfold current_shape. simpl. eauto. }
  split; [apply Hc | apply persist_restore_current_shape, Hc].
Qed.

Lemma persist_after_restore_fixed_point_witness :
  persist_restore Sample.with_session = Some Sample.with_session.
Proof.
  apply (proj1 (persist_after_restore_fixed_point Sample.with_session)).
  exists [Img.fresh "a" "ua"; Img.fresh "b" "ub"], ["s"], None. reflexivity.
Defined.

(** C6, as the claim has it, fails on a record that holds a bookmark and
    no session: the round trip stores a session next to the bookmark. *)
Lemma persist_after_restore_changes_bookmark_record :
  persist_restore Sample.bookmark_only
  = Some (Prefs.mk (Some Sample.bookmark)
            (Some (Session.mk (Some []) None
                     (Some ["data:image/png;base64,AAAA"])
                     (Some Sample.analysis)))) /\
  persist_restore Sample.bookmark_only <> Some Sample.bookmark_only.
Proof. split; [reflexivity | discriminate]. Qed.

(** *** Order of writes *)

Lemma split_app {A} (l1 l2 pre post : list A) (x : A) :
  l1 ++ l2 = pre ++ x :: post ->
  (exists post', l1 = pre ++ x :: post') \/
  (exists pre', pre = l1 ++ pre' /\ l2 = pre' ++ x :: post).
Proof.
  revert pre. induction l1 as [| y l1 IH]; intros pre H.
  - right. exists pre. now split.
  - destruct pre as [| z pre]; simpl in H; injection H as -> H.
    + left. exists l1. reflexivity.
    + destruct (IH _ H) as [[post' ->] | [pre' [-> ->]]].
      * left. now exists post'.
      * right. now exists pre'.
Qed.

Lemma writes_follow_load_app (tr ex : list Obs) :
  writes_follow_load tr ->
  (has_write ex -> In LoadSettled tr) ->
  writes_follow_load (tr ++ ex).
Proof.
  intros Hw Hex pre p r post Heq.
  destruct (split_app _ _ _ _ _ Heq) as [[post' ->] | [pre' [-> ->]]].
  - eapply Hw. reflexivity.
  - apply in_or_app. left. apply Hex. exists p, r.
    apply in_or_app. right. now left.
Qed.

Lemma no_write_in_console (lines : list string) (tl : list Obs) :
  has_write (map Console lines ++ tl) -> has_write tl.
Proof.
  intros (p & r & H). exists p, r.
  apply in_app_or in H as [H | H]; [| assumption].
  apply in_map_iff in H as (l & Hl & _). discriminate.
Qed.

Lemma autosave_effect_loaded (s : State) :
  autosave_effect s <> None -> isStorageLoaded s = true.
Proof. unfold autosave_effect. destruct (isStorageLoaded s); congruence. Qed.

Lemma inv_mount (f : Faults) (db0 : Db) : inv db0 (mount f db0).
Proof.
  unfold inv, mount. simpl. repeat split.
  - intros pre p r post H.
    assert (Hin : In (Write p r) (map Console (console (loadPreferences f db0)))).
    { rewrite H. apply in_or_app. right. now left. }
    apply in_map_iff in Hin as (l & Hl & _). discriminate.
  - discriminate.
  - intros H. now contradiction H.
  - apply StorageFacts.load_keeps_store.
  - intros (p & r & Hp). apply in_map_iff in Hp as (l & Hl & _). discriminate.
Qed.

Lemma init_loaded o s : isStorageLoaded (fst (init o s)) = true.
Proof. destruct o; reflexivity. Qed.

Lemma inv_step (db0 : Db) (e : Event) (w : World) :
  inv db0 w -> inv db0 (step e w).
Proof.
  intros H. pose proof H as (Hw & Hl & Ht & Hd).
  destruct e as [| faces ts a | f]; simpl.
  - destruct (pendingLoad w) as [o |]; [| exact H].
    destruct (init o (st w)) as [st' lines] eqn:Hi.
    assert (Hin : In LoadSettled (trace w ++ map Console lines ++ [LoadSettled])).
    { apply in_or_app. right. apply in_or_app. right. now left. }
    split; [| split; [| split]]; simpl.
    + apply writes_follow_load_app; [assumption |].
      intros Hx. apply no_write_in_console in Hx as (p & r & [Hx | []]).
      discriminate.
    + intros _. exact Hin.
    + intros _. change st' with (fst (st', lines)). rewrite <- Hi.
      apply init_loaded.
    + intros Hx. contradiction.
  - split; [| split; [| split]]; simpl.
    + assumption.
    + assumption.
    + intros Hx. apply autosave_effect_loaded in Hx. exact Hx.
    + assumption.
  - destruct (saveTimer w) as [p |] eqn:Hs; [| exact H].
    assert (Hin : In LoadSettled (trace w)).
    { apply Hl, Ht. congruence. }
    split; [| split; [| split]]; simpl.
    + apply writes_follow_load_app; [assumption | auto].
    + intros _. apply in_or_app. now left.
    + intros Hx. now contradiction Hx.
    + intros Hx. exfalso. apply Hx. apply in_or_app. now left.
Qed.

Lemma inv_exec (db0 : Db) (evs : list Event) (w : World) :
  inv db0 w -> inv db0 (exec evs w).
Proof.
  revert w. induction evs as [| e evs IH]; intros w H; simpl.
  - assumption.
  - apply IH, inv_step, H.
Qed.

(** C7. In every execution of the component, each write to the store comes
    after the initial load has settled, and until then the store holds what
    it held at mount. *)
Theorem no_write_before_restore (f : Faults) (db0 : Db) (evs : list Event) :
  let w := exec evs (mount f db0) in
  (forall pre p r post,
      trace w = pre ++ Write p r :: post -> In LoadSettled pre) /\
  (~ In LoadSettled (trace w) -> db w = db0 /\ ~ has_write (trace w)).
Proof.
  destruct (inv_exec db0 evs _ (inv_mount f db0)) as (Hw & _ & _ & Hd).
  split; assumption.
Qed.

(** The user changes the state before the load has settled and the timer is
    asked to fire early: nothing is written then; the one write comes after
    the load. *)
Lemma no_write_before_restore_witness :
  let w := exec [SetState ["x"] [] None; TimerFires no_faults;
                 LoadSettles; TimerFires no_faults]
                (mount no_faults (Some Sample.with_session)) in
  trace w = [LoadSettled; Write (snapshot (st w)) (Resolved tt)] /\
  In LoadSettled [LoadSettled].
Proof.
  intros w. split; [reflexivity |].
  apply (proj1 (no_write_before_restore no_faults (Some Sample.with_session)
                  [SetState ["x"] [] None; TimerFires no_faults;
                   LoadSettles; TimerFires no_faults])
           [LoadSettled] (snapshot (st w)) (Resolved tt) []).
  reflexivity.
Defined.
End PersistFacts.

(* ================================================================== *)
(** ** Storage failures: properties *)

Module FailureFacts.
Import Storage Persist.

Lemma mount_trace_consoles (f : Faults) (db0 : Db) (x : Obs) :
  In x (trace (mount f db0)) -> exists line, x = Console line.
Proof.
  unfold mount. simpl. intros H.
  apply in_map_iff in H as (l & <- & _). now exists l.
Qed.

Lemma failed_read_is_logged (f : Faults) (db0 : Db) :
  read_fails f ->
  fst (init (settled (loadPreferences f db0)) initial) = set_loaded initial /\
  exists line,
    In (Console line)
       (map Console (console (loadPreferences f db0))
        ++ map Console (snd (init (settled (loadPreferences f db0)) initial))).
Proof.
  unfold read_fails, loadPreferences.
  destruct (open_error f) as [e |]; simpl.
  - intros _. split; [reflexivity |]. eexists. now left.
  - destruct (get_error f) as [e |]; simpl.
    + intros _. split; [reflexivity |]. eexists. now left.
    + intros [H | H]; congruence.
Qed.

(** Where the code and the description of storage failures agree.  A failed
    read is logged and swallowed: [init] ends with the store marked as
    loaded, nothing is rejected, the store is as it was and the in-memory
    state keeps its defaults.  A failed write leaves the in-memory state and
    the stored record as they were. *)
Theorem storage_failures_leave_state
    (f : Faults) (db0 : Db) :
  (let w := step LoadSettles (mount f db0) in
   isStorageLoaded (st w) = true /\ db w = db0 /\
   (forall e, ~ In (UnhandledRejection e) (trace w)) /\
   (read_fails f ->
    st w = set_loaded initial /\ exists line, In (Console line) (trace w))) /\
  (forall (w : World) (p : Prefs.partial) (e : string),
      saveTimer w = Some p -> write_error f = Some e ->
      let w' := step (TimerFires f) w in
      st w' = st w /\ db w' = db w).
Proof.
  split.
  - cbv zeta. unfold step, mount. cbn [pendingLoad st db trace].
    destruct (init (settled (loadPreferences f db0)) initial) as [st' lines] eqn:Hi.
    cbn [st db trace].
    split; [| split; [| split]].
    + change st' with (fst (st', lines)). rewrite <- Hi. apply PersistFacts.init_loaded.
    + apply StorageFacts.load_keeps_store.
    + intros e H. repeat (apply in_app_or in H as [H | H]).
      * apply in_map_iff in H as (l & Hl & _). discriminate.
      * apply in_map_iff in H as (l & Hl & _). discriminate.
      * destruct H as [H | []]. discriminate.
    + intros Hf. destruct (failed_read_is_logged f db0 Hf) as (Hs & line & Hl).
      rewrite Hi in Hs, Hl. simpl in Hs, Hl. split; [exact Hs |].
      exists line. apply in_app_or in Hl as [Hl | Hl].
      * apply in_or_app. now left.
      * apply in_or_app. right. apply in_or_app. now left.
  - intros w p e Hs He. cbv zeta. unfold step. rewrite Hs.
    destruct (StorageFacts.failed_update_stores_nothing f p (db w) e He) as (Hd & Hr).
    cbn [st db trace]. rewrite Hd.
    split; reflexivity.
Qed.

Lemma storage_failures_leave_state_witness :
  (let w := step LoadSettles (mount Sample.unreadable (Some Sample.with_session)) in
   st w = set_loaded initial /\
   trace w = [Console "Failed to load user preferences"; LoadSettled]) /\
  (let w := exec [LoadSettles] (mount no_faults (Some Sample.with_session)) in
   st (step (TimerFires Sample.quota) w) = st w /\
   db (step (TimerFires Sample.quota) w) = Some Sample.with_session).
Proof.
  split.
  - split; [| reflexivity].
    apply (proj1 (storage_failures_leave_state Sample.unreadable
                    (Some Sample.with_session))).
    right. discriminate.
  - pose proof (proj2 (storage_failures_leave_state Sample.quota None)
                  (exec [LoadSettles] (mount no_faults (Some Sample.with_session)))
                  _ "QuotaExceededError" eq_refl eq_refl) as H.
    cbv zeta in H. destruct H as (H1 & H2). split; [exact H1 | exact H2].
Defined.

(** C8 at work on the code: a write failure is neither logged nor
    swallowed.  The store was restored and the auto-save timer fires; the put
    request fails for lack of space.  The [catch] of [updatePreferences],
    which logs a failure to open the database, is passed by, because the
    promise around the get and put requests is returned without [await]:
    the call writes no line to the console and its promise rejects.  The
    auto-save, unlike [init] for the read, has no handler: the rejection is
    left unhandled. *)
Theorem write_failure_is_not_swallowed :
  let w := exec [LoadSettles] (mount no_faults (Some Sample.with_session)) in
  let p := snapshot (st w) in
  console (updatePreferences Sample.quota p (db w)) = [] /\
  settled (updatePreferences Sample.quota p (db w)) = Rejected "QuotaExceededError" /\
  trace (step (TimerFires Sample.quota) w)
  = [LoadSettled; Write p (Rejected "QuotaExceededError");
     UnhandledRejection "QuotaExceededError"].
Proof. repeat split. Qed.
End FailureFacts.

(* ================================================================== *)
(** ** Batch pipeline: properties *)

Module BatchFacts.
Import Batch BatchSpec.

(** *** The updaters *)

Lemma with_status_keeps_id s : keeps_id (Img.with_status s).
Proof. intros t. reflexivity. Qed.
Lemma with_completed_keeps_id u : keeps_id (Img.with_completed u).
Proof. intros t. reflexivity. Qed.
Lemma with_failed_keeps_id m : keeps_id (Img.with_failed m).
Proof. intros t. reflexivity. Qed.

Create HintDb batch.
#[local] Hint Resolve with_status_keeps_id with_completed_keeps_id
  with_failed_keeps_id : batch.

Lemma on_id_id i g t : keeps_id g -> Img.id (on_id i g t) = Img.id t.
Proof. intros Hg. unfold on_id. destruct (String.eqb _ _); auto. Qed.

Lemma on_id_hit i g t : Img.id t = i -> on_id i g t = g t.
Proof. intros <-. unfold on_id. now rewrite String.eqb_refl. Qed.

Lemma on_id_miss i g t : Img.id t <> i -> on_id i g t = t.
Proof.
  intros H. unfold on_id. apply String.eqb_neq in H. now rewrite H.
Qed.

Lemma map_on_id_ids i g ts :
  keeps_id g -> map Img.id (map (on_id i g) ts) = map Img.id ts.
Proof.
  intros Hg. rewrite map_map. apply map_ext. intros t. now apply on_id_id.
Qed.

Lemma outside_spec W t : outside W t = true <-> ~ In (Img.id t) W.
Proof.
  unfold outside. rewrite negb_true_iff. split.
  - intros H Hin.
    assert (E : existsb (String.eqb (Img.id t)) W = true).
    { apply existsb_exists. exists (Img.id t). split; [assumption | apply String.eqb_refl]. }
    congruence.
  - intros H. destruct (existsb _ W) eqn:E; [| reflexivity].
    apply existsb_exists in E as (x & Hx & He).
    apply String.eqb_eq in He. subst x. contradiction.
Qed.

Lemma outside_false W t : In (Img.id t) W -> outside W t = false.
Proof.
  intros H. destruct (outside W t) eqn:E; [| reflexivity].
  apply outside_spec in E. contradiction.
Qed.

(** An update of an item of [W] is invisible outside [W]. *)
Lemma filter_outside_on_id W i g ts :
  In i W -> keeps_id g ->
  filter (outside W) (map (on_id i g) ts) = filter (outside W) ts.
Proof.
  intros Hi Hg. induction ts as [| t ts IH]; simpl; [reflexivity |].
  destruct (string_dec (Img.id t) i) as [E | E].
  - rewrite (on_id_hit _ _ _ E).
    rewrite (outside_false W t) by now rewrite E.
    rewrite (outside_false W (g t)) by now rewrite Hg, E.
    exact IH.
  - rewrite (on_id_miss _ _ _ E). now rewrite IH.
Qed.

(** *** The loop *)

Lemma loop_nil r a :
  loop r [] a = (setIsProcessingBatch false a, at_pc r [] Returned).
Proof. reflexivity. Qed.

Lemma loop_dispatch r i rest a url :
  targetUrl (cl_targets r) i = Some url ->
  loop r (i :: rest) a
  = (dispatch (mkCall (cl_sourceFaces r) url (cl_settings r))
              (setTargets (map (on_id i (Img.with_status processing))) a),
     at_pc r rest (AwaitSwap i)).
Proof. intros H. simpl. now rewrite H. Qed.

Lemma loop_skip r i rest a :
  targetUrl (cl_targets r) i = None ->
  loop r (i :: rest) a
  = loop r rest (setTargets (map (on_id i (Img.with_status processing))) a).
Proof. intros H. simpl. now rewrite H. Qed.

(** The loop keeps the closure, never edits settings or sources, and
    either returns or suspends on a swap with fewer identifiers left. *)
Lemma loop_shape r ids a :
  let '(a', r') := loop r ids a in
  cl_sourceFaces r' = cl_sourceFaces r /\
  cl_targets r' = cl_targets r /\
  cl_settings r' = cl_settings r /\
  settings a' = settings a /\
  sourceFaces a' = sourceFaces a /\
  map Img.id (targets a') = map Img.id (targets a) /\
  (pc r' = Returned \/
   exists i, pc r' = AwaitSwap i /\ In i ids /\
             S (List.length (todo r')) <= List.length ids /\
             incl (todo r') ids).
Proof.
  revert a. induction ids as [| i rest IH]; intros a.
  - simpl. repeat split; auto.
  - destruct (targetUrl (cl_targets r) i) as [url |] eqn:E.
    + rewrite (loop_dispatch _ _ _ _ _ E). simpl.
      repeat split; auto.
      * apply map_on_id_ids; auto with batch.
      * right. exists i. repeat split; auto.
        intros x Hx. now right.
    + rewrite (loop_skip _ _ _ _ E).
      specialize (IH (setTargets (map (on_id i (Img.with_status processing))) a)).
      destruct (loop r rest _) as [a' r'].
      destruct IH as (H1 & H2 & H3 & H4 & H5 & H6 & H7).
      repeat split; auto.
      * rewrite H6. simpl. apply map_on_id_ids; auto with batch.
      * destruct H7 as [H7 | (j & Hj & Hin & Hlen & Hincl)]; [now left |].
        right. exists j. repeat split; auto.
        -- now right.
        -- simpl. lia.
        -- intros x Hx. right. now apply Hincl.
Qed.

(** *** Every call of a run carries the values of its closure *)

Lemma loop_calls a0 r ids a :
  calls_inv a0 (a, r) -> calls_inv a0 (loop r ids a).
Proof.
  revert a. induction ids as [| i rest IH]; intros a (Hs & Hf & new & Hc & Hn).
  - simpl. repeat split; auto. exists new. now split.
  - simpl in *. destruct (targetUrl (cl_targets r) i) as [url |].
    + repeat split; auto. exists (new ++ [mkCall (cl_sourceFaces r) url (cl_settings r)]).
      simpl. rewrite Hc, app_assoc. split; [reflexivity |].
      apply Forall_app. split; [assumption |].
      constructor; [| constructor]. now split.
    + apply IH. repeat split; auto. exists new. now split.
Qed.

Lemma start_calls a0 : calls_inv a0 (runBatchProcessor a0).
Proof.
  unfold runBatchProcessor.
  set (r0 := mkRun (sourceFaces a0) (targets a0) (settings a0) [] Returned).
  assert (H : forall b, calls_inv a0 (setIsProcessingBatch b a0, r0)).
  { intros b. repeat split. exists []. rewrite app_nil_r. now split. }
  assert (H0 : calls_inv a0 (a0, r0)).
  { repeat split. exists []. rewrite app_nil_r. now split. }
  clearbody r0. destruct (sourceFaces a0).
  - exact H0.
  - apply loop_calls, H.
Qed.

Lemma step_calls a0 e ar : calls_inv a0 ar -> calls_inv a0 (step e ar).
Proof.
  destruct ar as [a r]. intros H. destruct e as [u | w]; simpl.
  - destruct H as (Hs & Hf & new & Hc & Hn).
    repeat split; auto. exists new. split; [| assumption].
    destruct u; simpl in *; assumption.
  - pose proof H as (Hs & Hf & new & Hc & Hn).
    destruct w as [[u | e] |]; destruct (pc r) eqn:Hp; simpl; try exact H;
      try (repeat split; auto; exists new; now split).
    apply loop_calls. exact H.
Qed.

Lemma exec_calls a0 evs ar : calls_inv a0 ar -> calls_inv a0 (exec evs ar).
Proof.
  revert ar. induction evs as [| e evs IH]; intros ar H; simpl.
  - assumption.
  - apply IH, step_calls, H.
Qed.

(** C4, as the code has it. The settings and the source images of a run
    are those of the state in which "Run Batch" was clicked: whatever the
    user edits while the run is in progress, every swap call of the run
    carries them. *)
Theorem run_uses_settings_of_its_start (a0 : App) (evs : list Event) :
  exists new,
    calls (fst (exec evs (runBatchProcessor a0))) = calls a0 ++ new /\
    Forall (fun c => call_settings c = settings a0 /\
                     call_sources c = sourceFaces a0) new.
Proof.
  destruct (exec_calls a0 evs _ (start_calls a0)) as (_ & _ & new & Hc & Hn).
  exists new. split; assumption.
Qed.

(** C4, as the claim has it, fails: the user switches "Preserve Hair" off
    while the first of two items is being swapped; the call for the second
    item, dispatched afterwards, still says "preserve hair". *)
Lemma edit_during_run_is_not_seen :
  let edited := edit (SetPreserveHair false) DEFAULT_SWAP_SETTINGS in
  let a' := fst (exec [User (EditSettings (SetPreserveHair false));
                       Wakes (SwapSettles (Generated "out"));
                       Wakes PauseEnds]
                      (runBatchProcessor Sample.app)) in
  settings a' = edited /\
  nth_error (calls a') 1 = Some (mkCall ["s"] "ub" DEFAULT_SWAP_SETTINGS) /\
  DEFAULT_SWAP_SETTINGS <> edited.
Proof. repeat split. discriminate. Qed.

(** *** The lookup of the address reads the closure *)

(** C3 at work on the code: the user removes item "b" while item "a" is
    being swapped.  When the loop reaches "b" the item is gone from the
    state, yet the loop finds it in the [targets] of its closure and calls
    the engine for it. *)
Theorem removed_item_is_still_dispatched :
  let '(a', r') := exec [User (RemoveTarget "b");
                         Wakes (SwapSettles (Generated "out"));
                         Wakes PauseEnds]
                        (runBatchProcessor Sample.app) in
  map Img.id (targets a') = ["a"] /\
  calls a' = [mkCall ["s"] "ua" DEFAULT_SWAP_SETTINGS;
              mkCall ["s"] "ub" DEFAULT_SWAP_SETTINGS] /\
  pc r' = AwaitSwap "b".
Proof. repeat split. Qed.

(** *** One run: it settles *)

Lemma exec_app evs1 evs2 ar : exec (evs1 ++ evs2) ar = exec evs2 (exec evs1 ar).
Proof. unfold exec. apply fold_left_app. Qed.

Lemma rounds_settle os a r :
  (pc r = Returned \/
   exists i, pc r = AwaitSwap i /\ S (List.length (todo r)) <= List.length os) ->
  pc (snd (exec (rounds os) (a, r))) = Returned.
Proof.
  revert a r. induction os as [| o os IH]; intros a r H.
  - destruct H as [H | (i & _ & H)]; [exact H | simpl in H; lia].
  - change (rounds (o :: os))
      with ([Wakes (SwapSettles o); Wakes PauseEnds] ++ rounds os).
    rewrite exec_app.
    destruct H as [H | (i & Hi & Hlen)].
    + assert (E : exec [Wakes (SwapSettles o); Wakes PauseEnds] (a, r) = (a, r)).
      { simpl. destruct o; rewrite H; simpl; rewrite H; reflexivity. }
      rewrite E. apply IH. now left.
    + assert (E : exists a1, exec [Wakes (SwapSettles o); Wakes PauseEnds] (a, r)
                             = loop (at_pc r (todo r) AwaitPause) (todo r) a1).
      { simpl. destruct o; rewrite Hi; simpl; eexists; reflexivity. }
      destruct E as (a1 & ->).
      pose proof (loop_shape (at_pc r (todo r) AwaitPause) (todo r) a1) as S.
      destruct (loop _ (todo r) a1) as [a2 r2].
      destruct S as (_ & _ & _ & _ & _ & _ & [S | (j & Hj & _ & Hl & _)]).
      * apply IH. now left.
      * apply IH. right. exists j. split; [exact Hj |]. simpl in Hlen. lia.
Qed.

Lemma run_settles a os :
  List.length (idle_ids (targets a)) <= List.length os ->
  pc (snd (exec (rounds os) (runBatchProcessor a))) = Returned.
Proof.
  intros Hlen. unfold runBatchProcessor.
  set (r0 := mkRun (sourceFaces a) (targets a) (settings a) [] Returned).
  destruct (sourceFaces a).
  - apply rounds_settle. now left.
  - pose proof (loop_shape r0 (idle_ids (targets a)) (setIsProcessingBatch true a)) as S.
    destruct (loop r0 _ _) as [a1 r1].
    destruct S as (_ & _ & _ & _ & _ & _ & [S | (j & Hj & _ & Hl & _)]).
    + apply rounds_settle. now left.
    + apply rounds_settle. right. exists j. split; [exact Hj | lia].
Qed.

(** *** One run: its postcondition *)

Lemma idle_ids_in ts i :
  In i (idle_ids ts) -> exists t, In t ts /\ Img.id t = i /\ Img.status t = idle.
Proof.
  unfold idle_ids. intros H. apply in_map_iff in H as (t & Ht & Hin).
  apply filter_In in Hin as (Hin & Hs). exists t. repeat split; auto.
  destruct (Img.status t); simpl in Hs; congruence.
Qed.

Lemma idle_ids_incl ts i : In i (idle_ids ts) -> In i (map Img.id ts).
Proof.
  intros H. apply idle_ids_in in H as (t & Hin & <- & _). now apply in_map.
Qed.

Lemma targetUrl_found ts i :
  In i (map Img.id ts) ->
  (forall t, In t ts -> Img.id t = i -> Img.originalUrl t <> "") ->
  exists url, targetUrl ts i = Some url.
Proof.
  intros Hin Hurl. unfold targetUrl.
  destruct (find (fun t => String.eqb (Img.id t) i) ts) as [t |] eqn:E.
  - apply find_some in E as (Ht & He). apply String.eqb_eq in He.
    specialize (Hurl t Ht He). apply String.eqb_neq in Hurl. rewrite Hurl.
    eexists. reflexivity.
  - apply in_map_iff in Hin as (t & Ht & Hin).
    apply (find_none _ _ E) in Hin. rewrite Ht, String.eqb_refl in Hin.
    discriminate.
Qed.

Lemma in_map_on_id i g ts t' :
  In t' (map (on_id i g) ts) ->
  exists t, In t ts /\
    ((Img.id t = i /\ t' = g t) \/ (Img.id t <> i /\ t' = t)).
Proof.
  intros H. apply in_map_iff in H as (t & <- & Hin). exists t.
  split; [assumption |].
  destruct (string_dec (Img.id t) i) as [E | E].
  - left. split; [assumption | now apply on_id_hit].
  - right. split; [assumption | now apply on_id_miss].
Qed.

Lemma filter_filter {A} (p q : A -> bool) l :
  filter p (filter q l) = filter q (filter p l).
Proof.
  induction l as [| x l IH]; simpl; [reflexivity |].
  destruct (p x) eqn:Hp, (q x) eqn:Hq; simpl; rewrite ?Hp, ?Hq, IH; reflexivity.
Qed.

Lemma loop_run_inv W tu r ids a :
  (forall i, In i ids ->
             In i W /\ exists url, targetUrl (cl_targets r) i = Some url) ->
  (forall t, In t (targets a) -> In (Img.id t) W -> ~ In (Img.id t) ids ->
             terminal (Img.status t)) ->
  filter (outside W) (targets a) = filter (outside W) tu ->
  run_inv W tu (loop r ids a).
Proof.
  intros H1 H2 H3. destruct ids as [| i rest].
  - rewrite loop_nil. split; [| split]; simpl.
    + intros i [].
    + intros t Ht Hw _. now apply H2.
    + exact H3.
  - destruct (H1 i (or_introl eq_refl)) as (Hi & url & Hurl).
    rewrite (loop_dispatch _ _ _ _ _ Hurl). split; [| split]; simpl.
    + exact H1.
    + intros t' Ht' Hw Hn.
      apply in_map_on_id in Ht' as (t & Ht & [[E ->] | [E ->]]).
      * exfalso. apply Hn. left. now rewrite <- E.
      * now apply H2.
    + rewrite filter_outside_on_id; auto with batch.
Qed.

Lemma start_run_inv a :
  sourceFaces a <> [] ->
  (forall t, In t (targets a) -> In (Img.id t) (idle_ids (targets a)) ->
             Img.originalUrl t <> "") ->
  run_inv (idle_ids (targets a)) (targets a) (runBatchProcessor a).
Proof.
  intros Hs Hurl. unfold runBatchProcessor.
  set (r0 := mkRun (sourceFaces a) (targets a) (settings a) [] Returned).
  assert (Hr0 : cl_targets r0 = targets a) by reflexivity.
  clearbody r0. destruct (sourceFaces a); [congruence |].
  apply loop_run_inv.
  - intros i Hi. split; [assumption |]. rewrite Hr0.
    apply targetUrl_found; [now apply idle_ids_incl |].
    intros t Ht E. apply Hurl; [assumption | now rewrite E].
  - intros t _ Hw Hn. contradiction.
  - reflexivity.
Qed.

Lemma step_run_inv W tu e ar :
  run_inv W tu ar ->
  (forall i url, e = User (AddTarget i url) -> ~ In i W) ->
  run_inv W (user_only [e] tu) (step e ar).
Proof.
  destruct ar as [a r]. intros H Hnew.
  pose proof H as (H1 & H2 & H3). simpl in H1, H2, H3.
  destruct e as [u | w].
  - destruct u as [i url | i | ed]; (split; [| split]); simpl; auto.
    + intros t Ht Hw Hn. apply in_app_or in Ht as [Ht | [<- | []]].
      * now apply H2.
      * exfalso. now apply (Hnew i url).
    + rewrite !filter_app, H3. reflexivity.
    + intros t Ht. apply filter_In in Ht as (Ht & _). now apply H2.
    + rewrite filter_filter, H3. apply filter_filter.
  - cbn [step user_only]. unfold resume.
    destruct w as [o |]; destruct (pc r) as [i | |] eqn:Hp;
      try (destruct o; exact H); try exact H.
    + assert (Hi : In i W).
      { apply H1. unfold pending. rewrite Hp. now left. }
      assert (G : forall g, keeps_id g ->
                   (forall t, terminal (Img.status (g t))) ->
                   run_inv W tu (setTargets (map (on_id i g)) a,
                                 at_pc r (todo r) AwaitPause)).
      { intros g Hg Hterm. split; [| split]; simpl.
        - intros j Hj. apply H1. unfold pending in *. simpl in Hj.
          rewrite Hp. now right.
        - intros t' Ht' Hw Hn. unfold pending in Hn. simpl in Hn.
          apply in_map_on_id in Ht' as (t & Ht & [[E ->] | [E ->]]).
          + apply Hterm.
          + apply H2; auto. unfold pending. rewrite Hp.
            intros [C | C]; [congruence | contradiction].
        - rewrite filter_outside_on_id; auto. }
      destruct o as [u | e].
      * apply G; auto with batch. intros t. now left.
      * apply G; auto with batch. intros t. now right.
    + apply loop_run_inv.
      * intros i Hi. apply H1. unfold pending. now rewrite Hp.
      * intros t Ht Hw Hn. apply H2; auto. unfold pending. now rewrite Hp.
      * exact H3.
Qed.

Lemma user_only_app evs1 evs2 ts :
  user_only (evs1 ++ evs2) ts = user_only evs2 (user_only evs1 ts).
Proof.
  revert ts. induction evs1 as [| [u | w] evs1 IH]; intros ts; simpl; auto.
Qed.

Lemma exec_run_inv W evs tu ar :
  run_inv W tu ar ->
  (forall i url, In (User (AddTarget i url)) evs -> ~ In i W) ->
  run_inv W (user_only evs tu) (exec evs ar).
Proof.
  revert tu ar. induction evs as [| e evs IH]; intros tu ar H Hnew.
  - exact H.
  - change (e :: evs) with ([e] ++ evs).
    rewrite user_only_app, exec_app. apply IH.
    + apply step_run_inv; [assumption |].
      intros i url ->. apply (Hnew i url). now left.
    + intros i url Hin. apply (Hnew i url). now right.
Qed.

(** What the user's actions make of a list: old items and new idle ones. *)
Lemma user_only_items evs ts t :
  In t (user_only evs ts) ->
  In t ts \/ exists i url, t = Img.fresh i url /\ In (User (AddTarget i url)) evs.
Proof.
  revert ts. induction evs as [| [u | w] evs IH]; intros ts H; simpl in H.
  - now left.
  - destruct (IH _ H) as [Hin | (i & url & -> & Hin)].
    + destruct u as [i url | i | ed]; simpl in Hin.
      * apply in_app_or in Hin as [Hin | [<- | []]]; [now left |].
        right. exists i, url. split; [reflexivity | now left].
      * apply filter_In in Hin as (Hin & _). now left.
      * now left.
    + right. exists i, url. split; [reflexivity | now right].
  - destruct (IH _ H) as [Hin | (i & url & -> & Hin)].
    + now left.
    + right. exists i, url. split; [reflexivity | now right].
Qed.

(** C1, as the code has it. With at least one source image, and when no
    item of the worklist has an empty address: the run returns once each
    swap has settled and each pause has ended; and when it has returned,
    whatever the user added or removed meanwhile, every item that is in the
    collection and in the worklist is [completed] or [failed], the items
    outside the worklist are those the user's actions alone would have left,
    and every item added during the run is [idle]. *)
Theorem batch_postcondition (a : App) :
  sourceFaces a <> [] ->
  (forall t, In t (targets a) -> In (Img.id t) (idle_ids (targets a)) ->
             Img.originalUrl t <> "") ->
  (forall os, List.length (idle_ids (targets a)) <= List.length os ->
              pc (snd (exec (rounds os) (runBatchProcessor a))) = Returned) /\
  (forall evs,
      adds_new (targets a) evs ->
      pc (snd (exec evs (runBatchProcessor a))) = Returned ->
      let a' := fst (exec evs (runBatchProcessor a)) in
      (forall t, In t (targets a') -> In (Img.id t) (idle_ids (targets a)) ->
                 terminal (Img.status t)) /\
      filter (outside (idle_ids (targets a))) (targets a')
      = filter (outside (idle_ids (targets a))) (user_only evs (targets a)) /\
      (forall t, In t (targets a') -> ~ In (Img.id t) (map Img.id (targets a)) ->
                 Img.status t = idle)).
Proof.
  intros Hs Hurl. split; [intros os; apply run_settles |].
  intros evs Hnew Hret a'.
  pose proof (exec_run_inv _ evs _ _ (start_run_inv a Hs Hurl)) as H.
  destruct H as (_ & H2 & H3).
  { intros i url Hin Hw. apply (Hnew i url Hin). now apply idle_ids_incl. }
  fold a' in H2, H3. split; [| split].
  - intros t Ht Hw. apply H2; auto. unfold pending. rewrite Hret. intros [].
  - exact H3.
  - intros t Ht Hn.
    assert (Ho : outside (idle_ids (targets a)) t = true).
    { apply outside_spec. intros C. apply Hn. now apply idle_ids_incl. }
    assert (Hin : In t (filter (outside (idle_ids (targets a))) (targets a'))).
    { apply filter_In. now split. }
    rewrite H3 in Hin. apply filter_In in Hin as (Hin & _).
    apply user_only_items in Hin as [Hin | (i & url & -> & _)].
    + exfalso. apply Hn. now apply in_map.
    + reflexivity.
Qed.

(** Two idle items; the user adds a third while the first is being
    swapped; the first swap succeeds and the second fails. *)
Lemma batch_postcondition_witness :
  let evs := [User (AddTarget "c" "uc");
              Wakes (SwapSettles (Generated "data:a")); Wakes PauseEnds;
              Wakes (SwapSettles (Thrown (ErrorObject "No image generated")));
              Wakes PauseEnds] in
  let a' := fst (exec evs (runBatchProcessor Sample.app)) in
  map Img.status (targets a') = [completed; failed; idle] /\
  (forall t, In t (targets a') -> In (Img.id t) ["a"; "b"] ->
             terminal (Img.status t)).
Proof.
  intros evs a'. split; [reflexivity |].
  assert (Hs : sourceFaces Sample.app <> []) by discriminate.
  assert (Hurl : forall t, In t (targets Sample.app) ->
                   In (Img.id t) (idle_ids (targets Sample.app)) ->
                   Img.originalUrl t <> "").
  { intros t [<- | [<- | []]] _; discriminate. }
  assert (Hnew : adds_new (targets Sample.app) evs).
  { intros i url [H | [H | [H | [H | [H | []]]]]]; try discriminate.
    injection H as <- <-. simpl. intros [C | [C | []]]; discriminate. }
  exact (proj1 (proj2 (batch_postcondition Sample.app Hs Hurl) evs Hnew eq_refl)).
Defined.

(** C1, as the claim has it, fails on an idle item whose address is the
    empty string: the loop marks it [processing], finds its address falsy
    and goes on; the run returns, no call was made and the item is neither
    [completed] nor [failed]. *)
Lemma empty_address_item_stays_processing :
  let a := mkApp ["s"] [Img.fresh "a" ""] DEFAULT_SWAP_SETTINGS false [] in
  let '(a', r') := runBatchProcessor a in
  pc r' = Returned /\
  calls a' = [] /\
  targets a' = [Img.with_status processing (Img.fresh "a" "")] /\
  In "a" (idle_ids (targets a)) /\
  ~ terminal processing.
Proof.
  simpl. repeat split; auto. intros [H | H]; discriminate.
Qed.

(** *** Any number of runs: the invariant of the items *)

Lemma fresh_invariant i url : item_invariant (Img.fresh i url).
Proof. unfold item_invariant, present. simpl. split; split; intros; congruence. Qed.

Lemma fresh_blank i url : blank (Img.fresh i url).
Proof. unfold blank. simpl. auto. Qed.

Lemma blank_invariant t : blank t -> item_invariant t.
Proof.
  intros (Hp & He & Hs). unfold item_invariant, present. rewrite Hp, He.
  split; split; intros H; try congruence; destruct Hs; congruence.
Qed.

Lemma idle_blank t : item_invariant t -> Img.status t = idle -> blank t.
Proof.
  intros ((Hp & _) & (He & _)) Hs. unfold present in *. rewrite Hs in *.
  repeat split; auto.
  - destruct (Img.processedUrl t); [| reflexivity].
    assert (C : idle = completed) by (apply Hp; discriminate). discriminate.
  - destruct (Img.error t); [| reflexivity].
    assert (C : idle = failed) by (apply He; discriminate). discriminate.
Qed.

Lemma processing_blank t : blank t -> blank (Img.with_status processing t).
Proof. intros (Hp & He & _). unfold blank. simpl. auto. Qed.

Lemma completed_invariant u t : blank t -> item_invariant (Img.with_completed u t).
Proof.
  intros (Hp & He & _). unfold item_invariant, present. simpl. rewrite He.
  split; split; intros; congruence.
Qed.

Lemma failed_invariant m t : blank t -> item_invariant (Img.with_failed m t).
Proof.
  intros (Hp & He & _). unfold item_invariant, present. simpl. rewrite Hp.
  split; split; intros; congruence.
Qed.

(** An update of the items called [i], which are blank, by an updater that
    gives items satisfying the invariant. *)
Lemma update_blank_items i g ts :
  keeps_id g ->
  (forall t, blank t -> item_invariant (g t)) ->
  Forall item_invariant ts ->
  (forall t, In t ts -> Img.id t = i -> blank t) ->
  Forall item_invariant (map (on_id i g) ts).
Proof.
  intros Hg Hinv Hall Hb. apply Forall_forall. intros t' Ht'.
  apply in_map_on_id in Ht' as (t & Ht & [[E ->] | [E ->]]).
  - apply Hinv, Hb; assumption.
  - rewrite Forall_forall in Hall. now apply Hall.
Qed.

Lemma loop_ok r ids a :
  NoDup ids ->
  Forall item_invariant (targets a) ->
  (forall t, In t (targets a) -> In (Img.id t) ids -> blank t) ->
  let '(a', r') := loop r ids a in
  Forall item_invariant (targets a') /\ run_ok a' r'.
Proof.
  revert a. induction ids as [| i rest IH]; intros a Hnd Hall Hb.
  - simpl. split; [assumption |]. split; [constructor | intros t _ []].
  - set (a1 := setTargets (map (on_id i (Img.with_status processing))) a).
    assert (Hall1 : Forall item_invariant (targets a1)).
    { apply update_blank_items; auto with batch.
      - intros t Ht. apply blank_invariant, processing_blank, Ht.
      - intros t Ht E. apply Hb; [assumption | now left]. }
    assert (Hb1 : forall t, In t (targets a1) -> In (Img.id t) (i :: rest) -> blank t).
    { intros t' Ht' Hin. simpl in Ht'.
      apply in_map_on_id in Ht' as (t & Ht & [[E ->] | [E ->]]).
      - apply processing_blank, Hb; [assumption | now left].
      - now apply Hb. }
    destruct (targetUrl (cl_targets r) i) as [url |] eqn:E.
    + rewrite (loop_dispatch _ _ _ _ _ E). fold a1. simpl.
      split; [exact Hall1 |]. split; [exact Hnd | exact Hb1].
    + rewrite (loop_skip _ _ _ _ E). fold a1. apply IH.
      * now inversion Hnd.
      * exact Hall1.
      * intros t Ht Hin. apply Hb1; [assumption | now right].
Qed.

Lemma resume_ok w a r :
  Forall item_invariant (targets a) -> run_ok a r ->
  let '(a', r') := resume w (a, r) in
  Forall item_invariant (targets a') /\
  map Img.id (targets a') = map Img.id (targets a) /\
  run_ok a' r'.
Proof.
  intros Hall Hok. pose proof Hok as (Hnd & Hb). unfold resume.
  destruct w as [o |]; destruct (pc r) as [i | |] eqn:Hp;
    try (destruct o; now auto); try now auto.
  - unfold pending in Hnd, Hb. rewrite Hp in Hnd, Hb.
    assert (G : forall g, keeps_id g ->
                 (forall t, blank t -> item_invariant (g t)) ->
                 Forall item_invariant (map (on_id i g) (targets a)) /\
                 map Img.id (map (on_id i g) (targets a)) = map Img.id (targets a) /\
                 run_ok (setTargets (map (on_id i g)) a)
                        (at_pc r (todo r) AwaitPause)).
    { intros g Hg Hinv. split; [| split].
      - apply update_blank_items; auto.
        intros t Ht E. apply Hb; [assumption | now left].
      - now apply map_on_id_ids.
      - split; unfold pending; simpl.
        + now inversion Hnd.
        + intros t' Ht' Hin.
          apply in_map_on_id in Ht' as (t & Ht & [[E ->] | [E ->]]).
          * exfalso. rewrite Hg, E in Hin. inversion Hnd. contradiction.
          * apply Hb; [assumption | now right]. }
    destruct o as [u | e]; simpl.
    + apply G; auto with batch. apply completed_invariant.
    + apply G; auto with batch. apply failed_invariant.
  - unfold pending in Hnd, Hb. rewrite Hp in Hnd, Hb.
    pose proof (loop_ok r (todo r) a Hnd Hall Hb) as L.
    pose proof (loop_shape r (todo r) a) as S.
    destruct (loop r (todo r) a) as [a' r'].
    destruct L as (L1 & L2). destruct S as (_ & _ & _ & _ & _ & S & _).
    split; [exact L1 | split; [exact S | exact L2]].
Qed.

Lemma NoDup_map_filter {A B} (f : A -> B) (p : A -> bool) l :
  NoDup (map f l) -> NoDup (map f (filter p l)).
Proof.
  induction l as [| x l IH]; simpl; intros H; [constructor |].
  inversion H as [| y l' Hn Hnd]; subst.
  destruct (p x); simpl; [| now apply IH].
  constructor; [| now apply IH].
  intros C. apply Hn. apply in_map_iff in C as (z & Hz & Hin).
  apply filter_In in Hin as (Hin & _). rewrite <- Hz. now apply in_map.
Qed.

Lemma NoDup_map_inj {A B} (f : A -> B) l x y :
  NoDup (map f l) -> In x l -> In y l -> f x = f y -> x = y.
Proof.
  induction l as [| z l IH]; simpl; intros H Hx Hy E; [contradiction |].
  inversion H as [| z' l' Hn Hnd]; subst.
  destruct Hx as [-> | Hx], Hy as [-> | Hy]; auto.
  - exfalso. apply Hn. rewrite E. now apply in_map.
  - exfalso. apply Hn. rewrite <- E. now apply in_map.
Qed.

Lemma act_ok u a :
  match u with
  | AddTarget i _ => ~ In i (map Img.id (targets a))
  | _ => True
  end ->
  Forall item_invariant (targets a) ->
  NoDup (map Img.id (targets a)) ->
  Forall item_invariant (targets (act u a)) /\
  NoDup (map Img.id (targets (act u a))) /\
  forall r, run_ok a r -> run_ok (act u a) r.
Proof.
  intros Hnew Hall Hnd. destruct u as [i url | i | ed]; simpl.
  - split; [| split].
    + apply Forall_app. split; [assumption |].
      constructor; [apply fresh_invariant | constructor].
    + rewrite map_app. simpl. apply NoDup_app; [assumption | | ].
      * constructor; [intros [] | constructor].
      * intros x Hx [<- | []]. contradiction.
    + intros r (Hn & Hb). split; [assumption |].
      intros t Ht Hin. simpl in Ht. apply in_app_or in Ht as [Ht | [<- | []]].
      * now apply Hb.
      * apply fresh_blank.
  - split; [| split].
    + apply Forall_forall. intros t Ht. apply filter_In in Ht as (Ht & _).
      rewrite Forall_forall in Hall. now apply Hall.
    + now apply NoDup_map_filter.
    + intros r (Hn & Hb). split; [assumption |].
      intros t Ht Hin. simpl in Ht. apply filter_In in Ht as (Ht & _).
      now apply Hb.
  - split; [assumption |]. split; [assumption |].
    intros r H. exact H.
Qed.

Lemma start_ok a :
  Forall item_invariant (targets a) ->
  NoDup (map Img.id (targets a)) ->
  let '(a', r') := runBatchProcessor a in
  Forall item_invariant (targets a') /\
  map Img.id (targets a') = map Img.id (targets a) /\
  run_ok a' r'.
Proof.
  intros Hall Hnd. unfold runBatchProcessor.
  set (r0 := mkRun (sourceFaces a) (targets a) (settings a) [] Returned).
  assert (H0 : run_ok a r0) by (split; [constructor | intros t _ []]).
  clearbody r0.
  destruct (sourceFaces a); [split; [exact Hall | split; [reflexivity | exact H0]] |].
  set (a1 := setIsProcessingBatch true a).
  assert (Hw : NoDup (idle_ids (targets a))).
  { unfold idle_ids. now apply NoDup_map_filter. }
  assert (Hb : forall t, In t (targets a1) ->
                 In (Img.id t) (idle_ids (targets a)) -> blank t).
  { intros t Ht Hin. apply idle_ids_in in Hin as (t' & Ht' & E & Hs).
    assert (t' = t) by (apply (NoDup_map_inj Img.id (targets a)); auto).
    subst t'.
    apply idle_blank; [| assumption].
    rewrite Forall_forall in Hall. now apply Hall. }
  pose proof (loop_ok r0 _ a1 Hw Hall Hb) as L.
  pose proof (loop_shape r0 (idle_ids (targets a)) a1) as S.
  destruct (loop r0 _ a1) as [a' r'].
  destruct L as (L1 & L2). destruct S as (_ & _ & _ & _ & _ & S & _).
  split; [exact L1 | split; [exact S | exact L2]].
Qed.

Lemma nth_error_replace_same {A} k (x y : A) l :
  nth_error l k = Some y -> nth_error (replace_nth k x l) k = Some x.
Proof.
  revert k. induction l as [| z l IH]; intros [| k] H; simpl in *;
    try discriminate; auto.
Qed.

Lemma nth_error_replace_other {A} k j (x : A) l :
  j <> k -> nth_error (replace_nth k x l) j = nth_error l j.
Proof.
  revert k j. induction l as [| z l IH]; intros [| k] [| j] H; simpl;
    try reflexivity; try congruence.
  apply IH. congruence.
Qed.

Lemma replace_nth_same {A} k (x : A) l :
  nth_error l k = Some x -> replace_nth k x l = l.
Proof.
  revert k. induction l as [| z l IH]; intros [| k] H; simpl in *;
    try discriminate; try congruence.
  f_equal. now apply IH.
Qed.

Lemma nth_error_snoc {A} (l : list A) x k y :
  nth_error (l ++ [x]) k = Some y ->
  nth_error l k = Some y \/ (k = List.length l /\ y = x).
Proof.
  revert k. induction l as [| z l IH]; intros [| k] H; simpl in *.
  - right. split; congruence.
  - destruct k; discriminate.
  - now left.
  - destruct (IH _ H) as [G | [-> ->]]; [now left | right; now split].
Qed.

Lemma resume_returned w a r : pc r = Returned -> resume w (a, r) = (a, r).
Proof.
  intros H. unfold resume. rewrite H. destruct w as [[u | e] |]; reflexivity.
Qed.

Lemma sys_step_inv e s :
  match e with
  | Does (AddTarget i _) => ~ In i (map Img.id (targets (fst s)))
  | Click => quiet (snd s)
  | _ => True
  end ->
  sys_inv s -> sys_inv (sys_step e s).
Proof.
  destruct s as [a runs]. intros Hadm H.
  pose proof H as (Hall & Hnd & Hruns). simpl in Hall, Hnd, Hruns, Hadm.
  destruct e as [u | | k w]; cbn [sys_step].
  - assert (Hu : match u with
                 | AddTarget i _ => ~ In i (map Img.id (targets a))
                 | _ => True
                 end) by (destruct u; auto).
    destruct (act_ok u a Hu Hall Hnd) as (F & N & T).
    split; [exact F | split; [exact N |]]. simpl.
    intros j r Hj Hp. destruct (Hruns j r Hj Hp) as (Hok & Hun).
    split; [now apply T | exact Hun].
  - pose proof (start_ok a Hall Hnd) as S.
    destruct (runBatchProcessor a) as [a' r]. destruct S as (F & I & Hok).
    split; [exact F | split; [simpl; now rewrite I |]]. simpl.
    assert (Hlast : forall j r1, nth_error (runs ++ [r]) j = Some r1 ->
                      pc r1 <> Returned -> j = List.length runs /\ r1 = r).
    { intros j r1 Hj Hp. apply nth_error_snoc in Hj as [Hj | Hj]; [| exact Hj].
      exfalso. apply Hp, Hadm. eapply nth_error_In, Hj. }
    intros j r1 Hj Hp. destruct (Hlast j r1 Hj Hp) as (-> & ->).
    split; [exact Hok |].
    intros j' r2 Hj' Hp'. now destruct (Hlast j' r2 Hj' Hp').
  - destruct (nth_error runs k) as [r |] eqn:Hk; [| exact H].
    assert (Hdec : pc r = Returned \/ pc r <> Returned).
    { destruct (pc r); [right | right | left]; congruence. }
    destruct Hdec as [Hp | Hact].
    + rewrite resume_returned by assumption.
      rewrite replace_nth_same by assumption. exact H.
    + destruct (Hruns k r Hk Hact) as (Hok & Hun).
      pose proof (resume_ok w a r Hall Hok) as R.
      destruct (resume w (a, r)) as [a' r']. destruct R as (F & I & Hok').
      split; [exact F | split; [simpl; now rewrite I |]]. simpl.
      assert (Hk' : forall j r1, nth_error (replace_nth k r' runs) j = Some r1 ->
                      pc r1 <> Returned -> j = k /\ r1 = r').
      { intros j r1 Hj Hp1. destruct (Nat.eq_dec j k) as [-> | Hne].
        - rewrite (nth_error_replace_same _ _ _ _ Hk) in Hj. split; congruence.
        - rewrite nth_error_replace_other in Hj by assumption.
          exfalso. apply Hne. eapply Hun; eassumption. }
      intros j r1 Hj Hp1. destruct (Hk' j r1 Hj Hp1) as (-> & ->).
      split; [exact Hok' |].
      intros j' r2 Hj' Hp'. now destruct (Hk' j' r2 Hj' Hp').
Qed.

Lemma sys_exec_inv evs s :
  admissible s evs -> sys_inv s -> sys_inv (sys_exec evs s).
Proof.
  revert s. induction evs as [| e evs IH]; intros s Ha H; simpl.
  - exact H.
  - destruct Ha as (He & Ha). apply IH; [exact Ha |].
    apply sys_step_inv; [| exact H].
    destruct e as [[i url | i | ed] | | k w]; auto.
Qed.

Lemma sys_exec_app evs1 evs2 s :
  sys_exec (evs1 ++ evs2) s = sys_exec evs2 (sys_exec evs1 s).
Proof. unfold sys_exec. apply fold_left_app. Qed.

Lemma admissible_prefix evs1 evs2 s :
  admissible s (evs1 ++ evs2) -> admissible s evs1.
Proof.
  revert s. induction evs1 as [| e evs1 IH]; intros s H; simpl in *.
  - exact I.
  - destruct H as (He & H). split; [exact He | now apply IH].
Qed.

(** C2, as the code has it. Start from a restored session whose items
    satisfy the invariant and have distinct identifiers.  Along every
    schedule of additions (with unused identifiers), removals, edits of the
    settings, clicks on "Run Batch" made when no run is in progress, and
    wake-ups of the run, every item has a [processedUrl] exactly when it is
    [completed] and an [error] exactly when it is [failed], at every
    moment. *)
Theorem item_invariant_without_overlap
    (o : Storage.Settled (option UserPreferences))
    (before after : list SysEvent) :
  Forall item_invariant (targets (fst (restored o))) ->
  NoDup (map Img.id (targets (fst (restored o)))) ->
  admissible (restored o) (before ++ after) ->
  Forall item_invariant (targets (fst (sys_exec before (restored o)))).
Proof.
  intros Hall Hnd Ha. apply admissible_prefix in Ha.
  apply (sys_exec_inv before (restored o) Ha).
  split; [exact Hall | split; [exact Hnd |]].
  intros k r Hk. destruct k; discriminate.
Qed.

(** A restored session with two idle items: a run, during which the user
    adds a third item; one swap succeeds, one fails; then a second run. *)
Lemma item_invariant_without_overlap_witness :
  Forall item_invariant
    (targets (fst (sys_exec
       [Click; Does (AddTarget "c" "uc");
        WakesRun 0 (SwapSettles (Generated "data:a")); WakesRun 0 PauseEnds;
        WakesRun 0 (SwapSettles (Thrown OtherValue)); WakesRun 0 PauseEnds;
        Click]
       (restored (Storage.Resolved (Some Sample.with_session)))))).
Proof.
  apply (item_invariant_without_overlap
           (Storage.Resolved (Some Sample.with_session)) _ []).
  - simpl. repeat constructor; apply fresh_invariant.
  - simpl. repeat constructor; simpl; intuition discriminate.
  - simpl. unfold quiet. simpl.
    repeat match goal with |- _ /\ _ => split end; try exact I.
    + intros r [].
    + intros [C | [C | []]]; discriminate.
    + intros r [<- | []]. reflexivity.
Defined.

(** C2, as the claim has it, fails when two runs overlap.  The session has
    two idle items.  A first click starts on "a"; a second click, while "a"
    is being swapped, takes "b" and completes it.  The first run then
    reaches "b": it marks it [processing] without removing the result, and
    when its own swap of "b" fails it adds an error next to the result. *)
Lemma overlapping_runs_break_item_invariant :
  let s := sys_exec
             [Click; Click;
              WakesRun 1 (SwapSettles (Generated "data:b"));
              WakesRun 0 (SwapSettles (Generated "data:a"));
              WakesRun 0 PauseEnds;
              WakesRun 0 (SwapSettles (Thrown (ErrorObject "No image generated")))]
             (restored (Storage.Resolved (Some Sample.with_session))) in
  nth_error (targets (fst s)) 1
  = Some (Img.mk "b" "ub" (Some "data:b") failed (Some "No image generated") None) /\
  ~ Forall item_invariant (targets (fst s)).
Proof.
  split; [reflexivity |].
  intros H. simpl in H. inversion H as [| x l _ H1]; subst.
  inversion H1 as [| x l ((Hp & _) & _) _]; subst.
  unfold present in Hp. simpl in Hp.
  assert (C : failed = completed) by (apply Hp; discriminate). discriminate.
Qed.
End BatchFacts.

(* ================================================================== *)
(** ** Source identity handlers: properties *)

Module SourceOpsFacts.
Import Source SourceOps.

Lemma splice1_firstn_skipn {A} index (l : list A) :
  splice1 index l = firstn index l ++ skipn (S index) l.
Proof.
  revert index. induction l as [| x l IH]; intros [| k]; simpl; auto.
  now rewrite IH.
Qed.

Lemma splice1_out_of_range {A} index (l : list A) :
  List.length l <= index -> splice1 index l = l.
Proof.
  revert index. induction l as [| x l IH]; intros [| k] H; simpl in *;
    try reflexivity; try lia.
  f_equal. apply IH. lia.
Qed.

Lemma splice1_in {A} index (l : list A) x : In x (splice1 index l) -> In x l.
Proof.
  revert index. induction l as [| y l IH]; intros [| k] H; simpl in *; auto.
  destruct H as [H | H]; [now left | right; eauto].
Qed.

Lemma splice1_length {A} index (l : list A) :
  index < List.length l -> S (List.length (splice1 index l)) = List.length l.
Proof.
  revert index. induction l as [| y l IH]; intros [| k] H; simpl in *;
    try lia. rewrite IH; lia.
Qed.

Lemma splice1_NoDup {A} index (l : list A) : NoDup l -> NoDup (splice1 index l).
Proof.
  revert index. induction l as [| y l IH]; intros [| k] H; simpl; auto.
  - now inversion H.
  - inversion H as [| z l' Hn Hd]; subst. constructor; [| now apply IH].
    intros C. apply Hn. eapply splice1_in, C.
Qed.

(** X1. [removeSourceImage] takes out the image at [index] and nothing else
    (nothing at all when [index] is past the end), so a sequence without
    repeats stays one and gets one shorter when [index] is in range; the
    analysis is dropped exactly when [index] is 0. *)
Theorem removeSourceImage_effect (index : nat) (s : State) :
  sourceFaces (removeSourceImage index s)
  = firstn index (sourceFaces s) ++ skipn (S index) (sourceFaces s) /\
  (List.length (sourceFaces s) <= index ->
   sourceFaces (removeSourceImage index s) = sourceFaces s) /\
  (index < List.length (sourceFaces s) ->
   S (List.length (sourceFaces (removeSourceImage index s)))
   = List.length (sourceFaces s)) /\
  (NoDup (sourceFaces s) -> NoDup (sourceFaces (removeSourceImage index s))) /\
  (index = 0 -> analysis (removeSourceImage index s) = None) /\
  (index <> 0 -> analysis (removeSourceImage index s) = analysis s).
Proof.
  simpl. split; [apply splice1_firstn_skipn |].
  split; [apply splice1_out_of_range |].
  split; [apply splice1_length |].
  split; [apply splice1_NoDup |].
  split.
  - intros ->. reflexivity.
  - intros H. destruct index; [contradiction | reflexivity].
Qed.

Lemma removeSourceImage_effect_witness :
  sourceFaces (removeSourceImage 1 (mkState ["a"; "b"; "c"] (Some Sample.analysis)
                                            false (fun _ => None) [] []))
  = ["a"; "c"] /\
  analysis (removeSourceImage 1 (mkState ["a"; "b"; "c"] (Some Sample.analysis)
                                         false (fun _ => None) [] []))
  = Some Sample.analysis.
Proof.
  pose (s0 := mkState ["a"; "b"; "c"] (Some Sample.analysis) false
                      (fun _ => None) [] []).
  split.
  - exact (proj1 (removeSourceImage_effect 1 s0)).
  - apply (removeSourceImage_effect 1 s0). discriminate.
Defined.

Lemma splice1_last {A} (l : list A) x : splice1 (List.length l) (l ++ [x]) = l.
Proof. induction l as [| y l IH]; simpl; [reflexivity | now rewrite IH]. Qed.

(** X2. An image that [addImage] appended is taken out again by removing
    the last position: the sequence is as before. *)
Theorem remove_undoes_add (img : string) (prev : list string) :
  ~ In img prev -> List.length prev < 3 ->
  splice1 (List.length prev) (addImage img prev) = prev.
Proof.
  intros Hn Hl.
  destruct (SourceFacts.addImage_unchanged_or_appended img prev) as [E | (E & _)].
  - unfold addImage in E. apply SourceFacts.includes_false in Hn.
    rewrite Hn in E. destruct (Nat.leb_spec 3 (List.length prev)); [lia |].
    exfalso. apply (f_equal (@List.length string)) in E.
    rewrite length_app in E. simpl in E. lia.
  - rewrite E. apply splice1_last.
Qed.

Lemma remove_undoes_add_witness :
  splice1 2 (addImage "c" ["a"; "b"]) = ["a"; "b"].
Proof.
  apply (remove_undoes_add "c" ["a"; "b"]).
  - simpl. intuition discriminate.
  - simpl. lia.
Defined.

Lemma addImage_first (x : string) : addImage x [] = [x].
Proof. reflexivity. Qed.

Lemma addImage_nonempty (x : string) (prev : list string) :
  prev <> [] -> addImage x prev <> [].
Proof.
  intros H. destruct (SourceFacts.addImage_unchanged_or_appended x prev)
    as [-> | (-> & _)]; [assumption |].
  destruct prev; discriminate.
Qed.

Lemma select_later (f : File) (o : AnalysisOutcome) (s : State) :
  sourceFaces s <> [] ->
  select f o s
  = mkState (addImage (file_dataUrl f) (sourceFaces s)) (analysis s)
            (isAnalyzing s) (analysisCache s) (analyzed s) (errors s).
Proof.
  intros H. unfold select, onload. destruct (sourceFaces s); [contradiction |].
  reflexivity.
Qed.

Lemma select_first_hit (f : File) (o : AnalysisOutcome) (s : State) r :
  sourceFaces s = [] -> analysisCache s (file_hash f) = Some r ->
  select f o s
  = mkState [file_dataUrl f] (Some r) (isAnalyzing s) (analysisCache s)
            (analyzed s) (errors s).
Proof. intros H Hc. unfold select, onload. rewrite H, Hc. reflexivity. Qed.

Lemma select_first_miss (f : File) (o : AnalysisOutcome) (s : State) :
  sourceFaces s = [] -> analysisCache s (file_hash f) = None ->
  select f o s
  = analysis_settles f o
      (mkState [file_dataUrl f] None true (analysisCache s)
               (analyzed s ++ [file_dataUrl f]) (errors s)).
Proof. intros H Hc. unfold select, onload. rewrite H, Hc. reflexivity. Qed.

Lemma cache_set_hit hash r c : cache_set hash r c hash = Some r.
Proof. unfold cache_set. now rewrite String.eqb_refl. Qed.

(** X3. The analysis of a file is computed once.  When a first image has
    been analyzed and the sequence is reset, selecting the same file again
    binds the remembered analysis and makes no second call of the analyzer,
    whatever the analyzer would answer. *)
Theorem analysis_is_memoized
    (f : File) (r : FaceAnalysisResult) (o : AnalysisOutcome) (s : State) :
  sourceFaces s = [] -> analysisCache s (file_hash f) = None ->
  let s1 := select f (Analyzed r) s in
  let s2 := select f o (onClear s1) in
  analysis s1 = Some r /\
  analysis s2 = Some r /\
  sourceFaces s2 = [file_dataUrl f] /\
  analyzed s2 = analyzed s ++ [file_dataUrl f].
Proof.
  intros He Hc s1 s2.
  assert (E1 : s1 = mkState [file_dataUrl f] (Some r) false
                            (cache_set (file_hash f) r (analysisCache s))
                            (analyzed s ++ [file_dataUrl f]) (errors s)).
  { unfold s1. now rewrite select_first_miss. }
  assert (E2 : s2 = mkState [file_dataUrl f] (Some r) false
                            (cache_set (file_hash f) r (analysisCache s))
                            (analyzed s ++ [file_dataUrl f]) (errors s)).
  { unfold s2. rewrite E1.
    rewrite (select_first_hit f o _ r); [reflexivity | reflexivity |].
    simpl. apply cache_set_hit. }
  rewrite E1, E2. simpl. auto.
Qed.

Lemma analysis_is_memoized_witness :
  let f := mkFile "9f86d0" "data:image/png;base64,AAAA" in
  let s := mkState [] None false (fun _ => None) [] [] in
  analyzed (select f AnalysisFailed (onClear (select f (Analyzed Sample.analysis) s)))
  = ["data:image/png;base64,AAAA"].
Proof.
  intros f s.
  exact (proj2 (proj2 (proj2 (analysis_is_memoized f Sample.analysis
                                AnalysisFailed s eq_refl eq_refl)))).
Defined.

(** X4. A failed analysis does not keep the image out: the image is in the
    sequence, no analysis is bound, the spinner is off, the failure is
    written to the console and nothing is remembered, so that selecting the
    file again after a reset calls the analyzer again. *)
Theorem failed_analysis_keeps_image
    (f : File) (o : AnalysisOutcome) (s : State) :
  sourceFaces s = [] -> analysisCache s (file_hash f) = None ->
  let s1 := select f AnalysisFailed s in
  sourceFaces s1 = [file_dataUrl f] /\
  analysis s1 = None /\
  isAnalyzing s1 = false /\
  errors s1 = errors s ++ ["Analysis failed"] /\
  (forall h, analysisCache s1 h = analysisCache s h) /\
  analyzed (select f o (onClear s1))
  = analyzed s ++ [file_dataUrl f; file_dataUrl f].
Proof.
  intros He Hc s1.
  assert (E1 : s1 = mkState [file_dataUrl f] None false (analysisCache s)
                            (analyzed s ++ [file_dataUrl f])
                            (errors s ++ ["Analysis failed"])).
  { unfold s1. now rewrite select_first_miss. }
  rewrite E1. simpl. repeat split; auto.
  rewrite select_first_miss; [| reflexivity | exact Hc].
  destruct o; simpl; now rewrite <- app_assoc.
Qed.

Lemma failed_analysis_keeps_image_witness :
  let f := mkFile "9f86d0" "data:image/png;base64,AAAA" in
  let s := mkState [] None false (fun _ => None) [] [] in
  sourceFaces (select f AnalysisFailed s) = ["data:image/png;base64,AAAA"].
Proof.
  intros f s.
  exact (proj1 (failed_analysis_keeps_image f AnalysisFailed s eq_refl eq_refl)).
Defined.

(** X5. Only the first image is analyzed.  While the sequence holds an
    image, selecting further files, in any number, changes neither the bound
    analysis nor the cache, and calls the analyzer for none of them. *)
Theorem later_images_are_not_analyzed
    (fs : list (File * AnalysisOutcome)) (s : State) :
  sourceFaces s <> [] ->
  let s' := select_all fs s in
  sourceFaces s' <> [] /\
  analysis s' = analysis s /\
  analyzed s' = analyzed s /\
  isAnalyzing s' = isAnalyzing s /\
  (forall h, analysisCache s' h = analysisCache s h).
Proof.
  revert s. induction fs as [| [f o] fs IH]; intros s H; simpl.
  - repeat split; auto.
  - specialize (IH (select f o s)). rewrite (select_later f o s H) in IH |- *.
    simpl in IH. destruct IH as (I1 & I2 & I3 & I4 & I5).
    + now apply addImage_nonempty.
    + repeat split; auto.
Qed.

Lemma later_images_are_not_analyzed_witness :
  let s := mkState ["a"] None false (fun _ => None) [] [] in
  analyzed (select_all [(mkFile "h1" "b", Analyzed Sample.analysis);
                        (mkFile "h2" "c", Analyzed Sample.analysis)] s) = [].
Proof.
  intros s.
  apply (later_images_are_not_analyzed
           [(mkFile "h1" "b", Analyzed Sample.analysis);
            (mkFile "h2" "c", Analyzed Sample.analysis)] s).
  discriminate.
Defined.

Lemma select_keeps (f : File) (o : AnalysisOutcome) (s : State) :
  List.length (sourceFaces s) <= 3 -> NoDup (sourceFaces s) ->
  (analysis s <> None -> sourceFaces s <> []) -> isAnalyzing s = false ->
  List.length (sourceFaces (select f o s)) <= 3 /\
  NoDup (sourceFaces (select f o s)) /\
  (analysis (select f o s) <> None -> sourceFaces (select f o s) <> []) /\
  isAnalyzing (select f o s) = false.
Proof.
  intros Hl Hn Ha Hi. destruct (sourceFaces s) as [| x l] eqn:E.
  - assert (Hone : NoDup [file_dataUrl f]) by (repeat constructor; intros []).
    destruct (analysisCache s (file_hash f)) as [r |] eqn:Hc.
    + rewrite (select_first_hit f o s r E Hc). simpl.
      repeat split; auto; try lia; discriminate.
    + rewrite (select_first_miss f o s E Hc).
      destruct o; simpl; repeat split; auto; try lia; discriminate.
  - rewrite select_later by (rewrite E; discriminate). simpl. rewrite E.
    destruct (SourceFacts.addImage_keeps_invariant (file_dataUrl f) (x :: l) Hl Hn)
      as (L & N).
    repeat split; auto.
    intros _. apply addImage_nonempty. discriminate.
Qed.

(** X6. Whatever the user does to the source identity, one thing after the
    other (select a file, remove a position, reset), the sequence holds at
    most 3 images and no image twice, an analysis is bound only while the
    sequence holds an image, and the spinner is off. *)
Theorem source_identity_invariant (ops : list Op) (s : State) :
  List.length (sourceFaces s) <= 3 -> NoDup (sourceFaces s) ->
  (analysis s <> None -> sourceFaces s <> []) -> isAnalyzing s = false ->
  let s' := run_ops ops s in
  List.length (sourceFaces s') <= 3 /\
  NoDup (sourceFaces s') /\
  (analysis s' <> None -> sourceFaces s' <> []) /\
  isAnalyzing s' = false.
Proof.
  revert s. induction ops as [| op ops IH]; intros s Hl Hn Ha Hi; simpl.
  - repeat split; auto.
  - assert (G : List.length (sourceFaces (apply_op op s)) <= 3 /\
                NoDup (sourceFaces (apply_op op s)) /\
                (analysis (apply_op op s) <> None ->
                 sourceFaces (apply_op op s) <> []) /\
                isAnalyzing (apply_op op s) = false).
    { destruct op as [f o | index |]; simpl.
      - now apply select_keeps.
      - split; [| split; [| split]]; auto.
        + destruct (Nat.lt_ge_cases index (List.length (sourceFaces s))) as [Hlt | Hge].
          * pose proof (splice1_length index (sourceFaces s) Hlt). lia.
          * now rewrite splice1_out_of_range.
        + now apply splice1_NoDup.
        + destruct index as [| k]; simpl; [congruence |].
          intros Hx. specialize (Ha Hx).
          destruct (sourceFaces s); [contradiction | discriminate].
      - repeat split; auto; simpl; try lia; try constructor; congruence. }
    destruct G as (G1 & G2 & G3 & G4). now apply IH.
Qed.

Lemma source_identity_invariant_witness :
  let s := mkState [] None false (fun _ => None) [] [] in
  List.length (sourceFaces
     (run_ops [Select (mkFile "h1" "a") (Analyzed Sample.analysis);
               Select (mkFile "h2" "b") AnalysisFailed;
               Select (mkFile "h1" "a") AnalysisFailed;
               Remove 1; Remove 0; Clear] s)) <= 3.
Proof.
  intros s.
  apply (source_identity_invariant
           [Select (mkFile "h1" "a") (Analyzed Sample.analysis);
            Select (mkFile "h2" "b") AnalysisFailed;
            Select (mkFile "h1" "a") AnalysisFailed;
            Remove 1; Remove 0; Clear] s).
  - simpl. lia.
  - constructor.
  - simpl. congruence.
  - reflexivity.
Defined.
End SourceOpsFacts.

(* ================================================================== *)
(** ** Engine client: properties *)

Module GeminiFacts.
Import Batch Gemini MoreSpec.

Lemma split_comma_cons (s : string) : exists seg segs, split_comma s = seg :: segs.
Proof.
  induction s as [| c s (seg & segs & IH)]; simpl; [eauto |].
  destruct (Ascii.eqb c ","); [eauto |]. rewrite IH. eauto.
Qed.

Lemma comma_free_empty : comma_free "".
Proof. reflexivity. Qed.

Lemma comma_free_String (c : ascii) (s : string) :
  comma_free (String c s) <-> Ascii.eqb c "," = false /\ comma_free s.
Proof.
  unfold comma_free. simpl. destruct (Ascii.eqb c ",") eqn:E.
  - split; [discriminate | intros [H _]; discriminate].
  - destruct (split_comma_cons s) as (seg & segs & Hs). rewrite Hs. split.
    + intros H. injection H as -> ->. now split.
    + intros [_ H]. now injection H as -> ->.
Qed.

Lemma comma_free_append (a b : string) :
  comma_free a -> comma_free b -> comma_free (a ++ b)%string.
Proof.
  induction a as [| c a IH]; simpl; intros Ha Hb; [exact Hb |].
  apply comma_free_String in Ha as (Hc & Ha).
  apply comma_free_String. split; [exact Hc | now apply IH].
Qed.

Lemma split_comma_append (p rest : string) :
  comma_free p ->
  split_comma (p ++ String "," rest)%string = p :: split_comma rest.
Proof.
  induction p as [| c p IH]; intros Hp; [reflexivity |].
  apply comma_free_String in Hp as (Hc & Hp).
  simpl. rewrite Hc, (IH Hp). reflexivity.
Qed.

Lemma split_comma_segments (s : string) : Forall comma_free (split_comma s).
Proof.
  induction s as [| c s IH]; simpl.
  - constructor; [apply comma_free_empty | constructor].
  - destruct (Ascii.eqb c ",") eqn:E.
    + constructor; [apply comma_free_empty | exact IH].
    + destruct (split_comma s) as [| seg segs].
      * constructor; [| constructor].
        apply comma_free_String. split; [exact E | apply comma_free_empty].
      * inversion IH as [| x l Hseg Hsegs]; subst. constructor; [| exact Hsegs].
        apply comma_free_String. now split.
Qed.

Lemma stripBase64_comma_free (s : string) : comma_free s -> stripBase64 s = s.
Proof. intros H. unfold stripBase64. rewrite H. reflexivity. Qed.

Lemma stripBase64_cases (s : string) :
  stripBase64 s = s \/
  (comma_free (stripBase64 s) /\ stripBase64 s <> "" /\
   nth_error (split_comma s) 1 = Some (stripBase64 s)).
Proof.
  unfold stripBase64.
  destruct (nth_error (split_comma s) 1) as [[| c seg] |] eqn:E; auto.
  right. split; [| split; [discriminate | reflexivity]].
  pose proof (split_comma_segments s) as F. rewrite Forall_forall in F.
  apply F. eapply nth_error_In, E.
Qed.

(** X7. [stripBase64] gives back its argument, or else the text between the
    first and the second comma, which is not empty and holds no comma; so
    stripping twice is stripping once. *)
Theorem stripBase64_idempotent (s : string) :
  (stripBase64 s = s \/
   (comma_free (stripBase64 s) /\ stripBase64 s <> "" /\
    nth_error (split_comma s) 1 = Some (stripBase64 s))) /\
  stripBase64 (stripBase64 s) = stripBase64 s.
Proof.
  split; [apply stripBase64_cases |].
  destruct (stripBase64_cases s) as [E | (H & _)].
  - now rewrite E.
  - now apply stripBase64_comma_free.
Qed.

Lemma append_assoc_s (a b c : string) : ((a ++ b) ++ c = a ++ (b ++ c))%string.
Proof. induction a as [| x a IH]; simpl; [reflexivity | now rewrite IH]. Qed.

Lemma split_data_url (mime : option string) (payload : string) :
  comma_free (template mime) ->
  split_comma (data_url mime payload)
  = ("data:" ++ template mime ++ ";base64")%string :: split_comma payload.
Proof.
  intros Hm. unfold data_url.
  replace ("data:" ++ template mime ++ ";base64," ++ payload)%string
    with (("data:" ++ template mime ++ ";base64") ++ String "," payload)%string.
  - apply split_comma_append.
    apply (comma_free_append "data:"); [reflexivity |].
    apply comma_free_append; [exact Hm | reflexivity].
  - rewrite !append_assoc_s. reflexivity.
Qed.

(** X8. The data URL that [performFaceSwap] builds from a part of the
    response is taken apart again by [stripBase64]: when neither the MIME
    type nor the payload holds a comma and the payload is not empty, the
    result is the payload. *)
Theorem stripBase64_of_data_url (mime : option string) (payload : string) :
  comma_free (template mime) -> comma_free payload -> payload <> "" ->
  stripBase64 (data_url mime payload) = payload.
Proof.
  intros Hm Hp Hne. unfold stripBase64.
  rewrite (split_data_url mime payload Hm), Hp. simpl.
  destruct payload; [contradiction | reflexivity].
Qed.

Lemma stripBase64_of_data_url_witness :
  stripBase64 "data:image/png;base64,iVBORw0KGgo=" = "iVBORw0KGgo=".
Proof.
  apply (stripBase64_of_data_url (Some "image/png") "iVBORw0KGgo=").
  - reflexivity.
  - reflexivity.
  - discriminate.
Defined.

Lemma first_image_app (pre rest : list Part) :
  first_image pre = None -> first_image (pre ++ rest) = first_image rest.
Proof.
  induction pre as [| p pre IH]; simpl; [reflexivity |].
  destruct (inlineData p) as [d |]; [| exact IH].
  destruct (data d) as [[| c s] |]; [exact IH | discriminate | exact IH].
Qed.

Lemma first_image_found (parts : list Part) (url : string) :
  first_image parts = Some url ->
  exists pre d c s post,
    parts = pre ++ mkPart (Some d) :: post /\ first_image pre = None /\
    data d = Some (String c s) /\ url = data_url (mimeType d) (String c s).
Proof.
  induction parts as [| p parts IH]; simpl; [discriminate |].
  assert (Hrest : first_image parts = Some url ->
            first_image [p] = None ->
            exists pre d c s post,
              p :: parts = pre ++ mkPart (Some d) :: post /\
              first_image pre = None /\ data d = Some (String c s) /\
              url = data_url (mimeType d) (String c s)).
  { intros H Hp. destruct (IH H) as (pre & d & c & s & post & -> & Hpre & Hd & Hu).
    exists (p :: pre), d, c, s, post. repeat split; auto.
    change (p :: pre) with ([p] ++ pre). now rewrite first_image_app. }
  destruct p as [[d |]]; simpl in *.
  - destruct (data d) as [[| c s] |] eqn:Ed.
    + intros H. apply Hrest; auto.
    + intros [= <-]. exists [], d, c, s, parts. now repeat split.
    + intros H. apply Hrest; auto.
  - intros H. apply Hrest; auto.
Qed.

(** X9. What [performFaceSwap] returns.  Without an API key it throws
    before anything else.  With a key, a rejection of the service is passed
    on; a response gives the data URL of its first part that has non-empty
    inline data, whatever follows that part; and a response without such a
    part makes it throw "No image generated in response". *)
Theorem performFaceSwap_outcome (apiKey : option string) :
  (truthy apiKey = false ->
   forall reply, performFaceSwap apiKey reply
     = Thrown (ErrorObject "API Key not found in environment variables")) /\
  (truthy apiKey = true ->
   (forall e, performFaceSwap apiKey (Failed e) = Thrown e) /\
   (forall pre d c s post,
       first_image pre = None -> data d = Some (String c s) ->
       performFaceSwap apiKey (Responded (Some (pre ++ mkPart (Some d) :: post)))
       = Generated (data_url (mimeType d) (String c s))) /\
   (forall parts url,
       performFaceSwap apiKey (Responded parts) = Generated url ->
       exists pre d c s post,
         parts = Some (pre ++ mkPart (Some d) :: post) /\
         first_image pre = None /\ data d = Some (String c s) /\
         url = data_url (mimeType d) (String c s)) /\
   (forall parts e,
       performFaceSwap apiKey (Responded parts) = Thrown e ->
       e = ErrorObject "No image generated in response")).
Proof.
  split.
  - intros H reply. unfold performFaceSwap. now rewrite H.
  - intros H. unfold performFaceSwap. rewrite H. repeat split.
    + intros pre d c s post Hpre Hd.
      rewrite first_image_app by assumption. simpl. now rewrite Hd.
    + intros parts url Hg.
      destruct parts as [ps |]; simpl in Hg; [| discriminate].
      destruct (first_image ps) as [u |] eqn:E; [| discriminate].
      injection Hg as ->.
      destruct (first_image_found ps url E) as (pre & d & c & s & post & -> & R).
      exists pre, d, c, s, post. now split.
    + intros parts e Ht.
      destruct (first_image _); [discriminate | now injection Ht as <-].
Qed.

Lemma performFaceSwap_outcome_witness :
  performFaceSwap (Some "key")
    (Responded (Some [mkPart None;
                      mkPart (Some (mkInline (Some "image/png") (Some "")));
                      mkPart (Some (mkInline (Some "image/png") (Some "AAAA")));
                      mkPart (Some (mkInline (Some "image/jpeg") (Some "BBBB")))]))
  = Generated "data:image/png;base64,AAAA" /\
  performFaceSwap None (Failed OtherValue)
  = Thrown (ErrorObject "API Key not found in environment variables").
Proof.
  split.
  - apply (proj1 (proj2 (proj2 (performFaceSwap_outcome (Some "key")) eq_refl))
             [mkPart None; mkPart (Some (mkInline (Some "image/png") (Some "")))]
             (mkInline (Some "image/png") (Some "AAAA")) "A"%char "AAA").
    + reflexivity.
    + reflexivity.
  - apply (proj1 (performFaceSwap_outcome None) eq_refl).
Defined.
End GeminiFacts.

(* ================================================================== *)
(** ** Archive of the results: properties *)

Module DownloadFacts.
Import Gemini Download MoreSpec.

Lemma length_append_s (a b : string) :
  String.length (a ++ b)%string = String.length a + String.length b.
Proof. induction a as [| c a IH]; simpl; [reflexivity | now rewrite IH]. Qed.

Lemma append_cancel_r (a b x : string) : (a ++ x = b ++ x)%string -> a = b.
Proof.
  revert b. induction a as [| c a IH]; intros [| d b] H; simpl in H.
  - reflexivity.
  - exfalso. apply (f_equal String.length) in H. simpl in H.
    rewrite length_append_s in H. lia.
  - exfalso. apply (f_equal String.length) in H. simpl in H.
    rewrite length_append_s in H. lia.
  - injection H as -> H. f_equal. now apply IH.
Qed.

Lemma entry_name_injective (i j : nat) : entry_name i = entry_name j -> i = j.
Proof.
  unfold entry_name. intros H. simpl in H.
  injection H as H. apply append_cancel_r in H.
  apply (f_equal NilEmpty.uint_of_string) in H. rewrite !NilEmpty.usu in H.
  injection H as H. apply (f_equal Nat.of_uint) in H.
  rewrite !DecimalNat.Unsigned.of_to in H. lia.
Qed.

Lemma has_result_url (t : ProcessedImage) :
  has_result t = true ->
  Img.status t = completed /\
  exists c s, Img.processedUrl t = Some (String c s).
Proof.
  unfold has_result. intros H. apply andb_true_iff in H as (Hs & Hu). split.
  - destruct (Img.status t); simpl in Hs; congruence.
  - destruct (Img.processedUrl t) as [[| c s] |]; simpl in Hu; try discriminate.
    eauto.
Qed.

Lemma entries_from_nth (index : nat) (l : list ProcessedImage) :
  Forall (fun t => has_result t = true) l ->
  List.length (entries_from index l) = List.length l /\
  forall k e, nth_error (entries_from index l) k = Some e ->
    exists t url,
      nth_error l k = Some t /\ Img.processedUrl t = Some url /\
      fst e = entry_name (index + k) /\
      snd e = nth_error (split_comma url) 1.
Proof.
  revert index. induction l as [| t l IH]; intros index H; simpl.
  - split; [reflexivity |]. intros [| k] e He; discriminate.
  - inversion H as [| x l' Ht Hl]; subst.
    destruct (has_result_url t Ht) as (_ & c & s & Hu). rewrite Hu.
    destruct (IH (S index) Hl) as (Hlen & Hn). split; [simpl; now rewrite Hlen |].
    intros [| k] e He; simpl in He.
    + injection He as <-. exists t, (String c s). rewrite Nat.add_0_r. now repeat split.
    + destruct (Hn k e He) as (t' & url & H1 & H2 & H3 & H4).
      exists t', url. repeat split; auto. rewrite H3. f_equal. lia.
Qed.

Lemma filter_all {A} (p : A -> bool) (l : list A) :
  Forall (fun x => p x = true) (filter p l).
Proof. apply Forall_forall. intros x H. now apply filter_In in H. Qed.

Lemma entries_names (index : nat) (l : list ProcessedImage) :
  Forall (fun t => has_result t = true) l ->
  map fst (entries_from index l) = map entry_name (seq index (List.length l)).
Proof.
  revert index. induction l as [| t l IH]; intros index H; simpl; [reflexivity |].
  inversion H as [| x l' Ht Hl]; subst.
  destruct (has_result_url t Ht) as (_ & c & s & Hu). rewrite Hu. simpl.
  now rewrite IH.
Qed.

Lemma NoDup_map_injective {A B} (f : A -> B) (l : list A) :
  (forall x y, f x = f y -> x = y) -> NoDup l -> NoDup (map f l).
Proof.
  intros Hf. induction 1 as [| x l Hn Hd IH]; simpl; constructor; auto.
  intros C. apply in_map_iff in C as (y & Hy & Hin).
  apply Hf in Hy. now subst.
Qed.

(** X10. [downloadAll] builds an archive exactly when some item is
    [completed] with a non-empty result.  The archive then holds one file for
    each such item, in the order of the items, named [swap_1.png],
    [swap_2.png], ... by position among those items; no two files have the
    same name. *)
Theorem downloadAll_files (targets : list ProcessedImage) :
  (downloadAll targets = None <->
   forall t, In t targets -> has_result t = false) /\
  (forall es, downloadAll targets = Some es ->
     let n := List.length (filter has_result targets) in
     0 < n /\ List.length es = n /\
     map fst es = map entry_name (seq 0 n) /\
     NoDup (map fst es)).
Proof.
  unfold downloadAll. pose proof (filter_all has_result targets) as F.
  split.
  - split.
    + intros H t Ht. destruct (has_result t) eqn:E; [| reflexivity].
      assert (Hin : In t (filter has_result targets)) by (apply filter_In; auto).
      destruct (filter has_result targets); [contradiction | discriminate].
    + intros H. destruct (filter has_result targets) as [| t l] eqn:E; [reflexivity |].
      assert (Hin : In t (filter has_result targets)) by (rewrite E; now left).
      apply filter_In in Hin as (Hin & Ht). rewrite (H t Hin) in Ht. discriminate.
  - intros es H. destruct (filter has_result targets) as [| t l] eqn:E;
      [discriminate |].
    assert (Hes : entries_from 0 (t :: l) = es) by congruence.
    clear H. subst es. cbv zeta.
    split; [simpl; lia |].
    split; [apply (entries_from_nth 0 _ F) |].
    assert (Hn : map fst (entries_from 0 (t :: l))
                 = map entry_name (seq 0 (List.length (t :: l))))
      by apply (entries_names 0 _ F).
    split; [exact Hn |]. rewrite Hn.
    apply NoDup_map_injective; [apply entry_name_injective | apply seq_NoDup].
Qed.

Lemma downloadAll_files_witness :
  exists es,
    downloadAll [Img.fresh "a" "ua";
                 Img.with_completed "data:image/png;base64,AAAA" (Img.fresh "b" "ub");
                 Img.with_failed "No image generated in response" (Img.fresh "c" "uc");
                 Img.with_completed "data:image/png;base64,BBBB" (Img.fresh "d" "ud")]
    = Some es /\
    map fst es = ["swap_1.png"; "swap_2.png"].
Proof.
  pose (ts := [Img.fresh "a" "ua";
               Img.with_completed "data:image/png;base64,AAAA" (Img.fresh "b" "ub");
               Img.with_failed "No image generated in response" (Img.fresh "c" "uc");
               Img.with_completed "data:image/png;base64,BBBB" (Img.fresh "d" "ud")]).
  exists (entries_from 0 (filter has_result ts)). split; [reflexivity |].
  exact (proj1 (proj2 (proj2 (proj2 (downloadAll_files ts)
                                (entries_from 0 (filter has_result ts)) eq_refl)))).
Defined.

(** X11. The files of the archive hold what the engine sent.  When the
    result of every completed item is a data URL as [performFaceSwap] builds
    it, with no comma in its MIME type or payload, the file at position [k]
    of the archive holds the payload of the item at position [k] among the
    completed items. *)
Theorem downloadAll_payloads (targets : list ProcessedImage) (es : list Entry) :
  (forall t, In t targets -> has_result t = true ->
     exists mime payload,
       Img.processedUrl t = Some (data_url mime payload) /\
       comma_free (template mime) /\ comma_free payload) ->
  downloadAll targets = Some es ->
  forall k e, nth_error es k = Some e ->
    exists t mime payload,
      nth_error (filter has_result targets) k = Some t /\
      Img.processedUrl t = Some (data_url mime payload) /\
      e = (entry_name k, Some payload).
Proof.
  intros Hshape Hd k e He. unfold downloadAll in Hd.
  pose proof (filter_all has_result targets) as F.
  destruct (filter has_result targets) as [| t0 l] eqn:E; [discriminate |].
  assert (Hes : entries_from 0 (t0 :: l) = es) by congruence.
  clear Hd. subst es.
  destruct (proj2 (entries_from_nth 0 _ F) k e He) as (t & url & H1 & H2 & H3 & H4).
  assert (Hin : In t (filter has_result targets)).
  { rewrite E. eapply nth_error_In, H1. }
  apply filter_In in Hin as (Hin & Ht).
  destruct (Hshape t Hin Ht) as (mime & payload & Hu & Hm & Hp).
  exists t, mime, payload. split; [exact H1 |]. split; [exact Hu |].
  rewrite Hu in H2. injection H2 as <-.
  rewrite (GeminiFacts.split_data_url mime payload Hm), Hp in H4. simpl in H4.
  destruct e as [name body]. simpl in H3, H4. now subst.
Qed.

Lemma downloadAll_payloads_witness :
  let t0 := Img.with_completed "data:image/png;base64,AAAA" (Img.fresh "b" "ub") in
  exists t mime payload,
    nth_error (filter has_result [Img.fresh "a" "ua"; t0]) 0 = Some t /\
    Img.processedUrl t = Some (data_url mime payload) /\
    ("swap_1.png", Some "AAAA") = (entry_name 0, Some payload).
Proof.
  intros t0.
  apply (downloadAll_payloads [Img.fresh "a" "ua"; t0] [("swap_1.png", Some "AAAA")]).
  - intros x [<- | [<- | []]] Hx; [discriminate |].
    exists (Some "image/png"), "AAAA".
    split; [reflexivity |]. split; reflexivity.
  - reflexivity.
  - reflexivity.
Defined.
End DownloadFacts.

(* ================================================================== *)
(** ** Preference store and persistence: further properties *)

Module StoreMoreFacts.
Import Storage Persist MoreSpec.

(** [updatePreferences] is all or nothing: either no request fails,
    the promise resolves and the store holds the stored record with the
    update spread over it; or a request fails, the promise rejects with that
    error and the store holds what it held. *)
Theorem update_all_or_nothing (f : Faults) (p : Prefs.partial) (db : Db) :
  let r := updatePreferences f p db in
  (write_error f = None /\ settled r = Resolved tt /\
   db_after r
   = Some (Prefs.spread (match db with Some c => c | None => Prefs.empty end) p))
  \/
  (exists e, write_error f = Some e /\ settled r = Rejected e /\ db_after r = db).
Proof.
  cbv zeta. unfold write_error, updatePreferences.
  destruct (open_error f) as [e |]; [right; exists e; auto |].
  destruct (get_error f) as [e |]; [right; exists e; auto |].
  destruct (put_error f) as [e |]; [right; exists e; auto |].
  left. auto.
Qed.

Lemma update_ok (p : Prefs.partial) (db : Db) :
  db_after (updatePreferences no_faults p db)
  = Some (Prefs.spread (match db with Some c => c | None => Prefs.empty end) p).
Proof. reflexivity. Qed.

Lemma spread_then (c : UserPreferences) (p1 p2 : Prefs.partial) :
  Prefs.spread (Prefs.spread c p1) p2 = Prefs.spread c (then_partial p1 p2).
Proof.
  destruct c as [l s], p1 as [l1 s1], p2 as [l2 s2]. unfold Prefs.spread. simpl.
  destruct l2, s2; reflexivity.
Qed.

(** X12. With a working store, two updates in a row store what the single
    update that merges them (the later one winning key by key) stores.
    Hence an update made twice stores what it stores made once, and two
    updates that share no key can be made in either order. *)
Theorem updates_compose (p1 p2 : Prefs.partial) (db : Db) :
  let upd p d := db_after (updatePreferences no_faults p d) in
  upd p2 (upd p1 db) = upd (then_partial p1 p2) db /\
  upd p1 (upd p1 db) = upd p1 db /\
  ((Prefs.p_last_used_source p1 = None \/ Prefs.p_last_used_source p2 = None) ->
   (Prefs.p_session_state p1 = None \/ Prefs.p_session_state p2 = None) ->
   upd p2 (upd p1 db) = upd p1 (upd p2 db)).
Proof.
  cbv beta zeta. rewrite !update_ok. split; [| split].
  - f_equal. apply spread_then.
  - f_equal. rewrite spread_then. f_equal.
    destruct p1 as [[l |] [s |]]; reflexivity.
  - intros Hl Hs. f_equal. rewrite !spread_then. f_equal.
    destruct p1 as [l1 s1], p2 as [l2 s2]. simpl in *. unfold then_partial. simpl.
    destruct l1, l2, s1, s2; simpl; try reflexivity;
      destruct Hl, Hs; discriminate.
Qed.

Lemma updates_compose_witness :
  let upd p d := db_after (updatePreferences no_faults p d) in
  let p1 := Prefs.mkPartial (Some (Some Sample.bookmark)) None in
  let p2 := Prefs.mkPartial None (Some (Some Sample.session)) in
  upd p2 (upd p1 None) = upd p1 (upd p2 None).
Proof.
  intros upd p1 p2.
  apply (proj2 (proj2 (updates_compose p1 p2 None))).
  - right. reflexivity.
  - left. reflexivity.
Defined.

Lemma changes_keep (changes : list Event) (w : World) :
  Forall is_change changes ->
  isStorageLoaded (st (exec changes w)) = isStorageLoaded (st w) /\
  db (exec changes w) = db w /\
  trace (exec changes w) = trace w /\
  pendingLoad (exec changes w) = pendingLoad w.
Proof.
  revert w. induction changes as [| e changes IH]; intros w H; simpl.
  - auto.
  - inversion H as [| x l He Hl]; subst.
    destruct e as [| faces ts a | f]; try contradiction.
    destruct (IH (step (SetState faces ts a) w) Hl) as (I1 & I2 & I3 & I4).
    simpl in *. auto.
Qed.

(** X13. The auto-save is debounced on the trailing edge.  Once the store
    is loaded, any number of state changes followed by one firing of the
    timer make one call of [updatePreferences], with the state after the
    last change; firing again without a new change does nothing. *)
Theorem autosave_writes_last_state
    (w : World) (changes : list Event)
    (faces : list string) (ts : list ProcessedImage)
    (a : option FaceAnalysisResult) (fl fl' : Faults) :
  isStorageLoaded (st w) = true -> Forall is_change changes ->
  let w' := exec (changes ++ [SetState faces ts a; TimerFires fl]) w in
  let p := snapshot (mkState true faces ts a) in
  let r := updatePreferences fl p (db w) in
  trace w' = trace w ++ map Console (console r) ++ [Write p (settled r)]
             ++ rejection (settled r) /\
  db w' = db_after r /\
  st w' = mkState true faces ts a /\
  step (TimerFires fl') w' = w'.
Proof.
  intros Hl Hc. cbv zeta. unfold exec. rewrite fold_left_app. fold (exec changes w).
  destruct (changes_keep changes w Hc) as (I1 & I2 & I3 & I4).
  simpl. rewrite I1, Hl. simpl. rewrite I2, I3. auto.
Qed.

Lemma autosave_writes_last_state_witness :
  let w := exec [LoadSettles] (mount no_faults None) in
  db (exec ([SetState ["s"] [] None; SetState ["s"; "t"] [] None]
            ++ [SetState ["s"] [Img.fresh "a" "ua"] None; TimerFires no_faults]) w)
  = Some (Prefs.mk None (Some (Session.mk (Some [Img.fresh "a" "ua"]) None
                                          (Some ["s"]) None))).
Proof.
  intros w.
  apply (autosave_writes_last_state w
           [SetState ["s"] [] None; SetState ["s"; "t"] [] None]
           ["s"] [Img.fresh "a" "ua"] None no_faults no_faults).
  - reflexivity.
  - repeat constructor.
Defined.

Lemma snapshot_update_keeps_bookmark (f : Faults) (s : State) (d : Db) :
  bookmark_of (db_after (updatePreferences f (snapshot s) d)) = bookmark_of d.
Proof.
  unfold updatePreferences.
  destruct (open_error f); [reflexivity |].
  destruct (get_error f); [reflexivity |].
  destruct (put_error f); [reflexivity |].
  destruct d as [[l x] |]; reflexivity.
Qed.

Lemma autosave_effect_snapshot (s : State) (p : Prefs.partial) :
  autosave_effect s = Some p -> p = snapshot s.
Proof. unfold autosave_effect. destruct (isStorageLoaded s); congruence. Qed.

(** X14. The auto-save never touches the bookmark.  In every execution of
    the component, whatever the store does, the [last_used_source] of the
    stored record is the one the store held at mount. *)
Theorem autosave_keeps_bookmark (f : Faults) (db0 : Db) (evs : list Event) :
  bookmark_of (db (exec evs (mount f db0))) = bookmark_of db0.
Proof.
  assert (G : forall evs w,
             (forall p, saveTimer w = Some p -> exists s, p = snapshot s) ->
             bookmark_of (db (exec evs w)) = bookmark_of (db w)).
  { clear evs. induction evs as [| e evs IH]; intros w Hw; simpl; [reflexivity |].
    assert (Hfx : forall s p, autosave_effect s = Some p -> exists s', p = snapshot s').
    { intros s p H. exists s. now apply autosave_effect_snapshot. }
    destruct e as [| faces ts a | fl]; simpl.
    - destruct (pendingLoad w) as [o |]; [| now apply IH].
      destruct (init o (st w)) as [st' lines].
      rewrite IH; [reflexivity |]. simpl. apply Hfx.
    - rewrite IH; [reflexivity |]. simpl. apply Hfx.
    - destruct (saveTimer w) as [p |] eqn:E;
        [| apply IH; intros p Hp; rewrite E in Hp; discriminate].
      destruct (Hw p eq_refl) as (s & ->).
      rewrite IH; [| simpl; discriminate]. simpl.
      apply snapshot_update_keeps_bookmark. }
  rewrite G.
  - unfold mount. simpl. now rewrite StorageFacts.load_keeps_store.
  - unfold mount. simpl. discriminate.
Qed.

(** X15. What the auto-save wrote is what the next start restores.  With a
    working store, after the state [s] has been saved over any stored
    record, mounting the component again and letting the load settle gives
    the source images, targets and analysis of [s]. *)
Theorem restore_after_persist (s : State) (d : Db) :
  let d' := db_after (updatePreferences no_faults (snapshot s) d) in
  st (step LoadSettles (mount no_faults d'))
  = mkState true (sourceFaces s) (targets s) (analysis s).
Proof. destruct d as [[l x] |]; reflexivity. Qed.
End StoreMoreFacts.

(* ================================================================== *)
(** ** Bookmark of the last source: properties *)

Module BookmarkFacts.
Import Storage BookmarkSave.

(** X16. [saveSourceFaceToStorage] never rejects.  When no request fails it
    stores the bookmark (one image, its analysis, the time) and leaves the
    stored session as it was, writing nothing to the console; when a request
    fails the store is left as it was and one warning is written. *)
Theorem bookmark_save_is_contained
    (now : Z) (f : Faults) (image : string) (a : FaceAnalysisResult) (d : Db) :
  let r := saveSourceFaceToStorage now f image a d in
  settled r = Resolved tt /\
  (write_error f = None ->
   db_after r
   = Some (Prefs.mk (Some (Bookmark.mk (Some image) None a now))
                    (match d with Some c => Prefs.session_state c | None => None end))
   /\ console r = []) /\
  (write_error f <> None ->
   db_after r = d /\ In "Failed to save user preferences" (console r)).
Proof.
  cbv zeta. unfold saveSourceFaceToStorage, write_error, updatePreferences.
  destruct (open_error f) as [e |]; simpl.
  { split; [reflexivity |]. split; [discriminate |]. intros _. split; auto. }
  destruct (get_error f) as [e |]; simpl.
  { split; [reflexivity |]. split; [discriminate |]. intros _. split; auto. }
  destruct (put_error f) as [e |]; simpl.
  { split; [reflexivity |]. split; [discriminate |]. intros _. split; auto. }
  split; [reflexivity |]. split; [| congruence].
  intros _. split; [| reflexivity]. destruct d as [[l s] |]; reflexivity.
Qed.

Lemma bookmark_save_is_contained_witness :
  db_after (saveSourceFaceToStorage 1700000000000 Sample.quota "img"
              Sample.analysis (Some Sample.with_session))
  = Some Sample.with_session.
Proof.
  apply (proj2 (proj2 (bookmark_save_is_contained 1700000000000 Sample.quota "img"
                         Sample.analysis (Some Sample.with_session)))).
  discriminate.
Defined.

(** X17. A bookmark saved by the single-source variant is understood by the
    current component.  When [saveSourceFaceToStorage] has stored a
    non-empty image into a store that holds no session, the current [init]
    restores a sequence of that one image, with its analysis and no
    targets. *)
Theorem saved_bookmark_is_restored
    (now : Z) (image : string) (a : FaceAnalysisResult) (d : Db) :
  image <> "" ->
  (forall c, d = Some c -> Prefs.session_state c = None) ->
  let d' := db_after (saveSourceFaceToStorage now no_faults image a d) in
  Persist.st (Persist.step Persist.LoadSettles (Persist.mount no_faults d'))
  = Persist.mkState true [image] [] (Some a).
Proof.
  intros Hi Hs. cbv zeta.
  assert (E : db_after (saveSourceFaceToStorage now no_faults image a d)
              = Some (Prefs.mk (Some (Bookmark.mk (Some image) None a now)) None)).
  { destruct d as [[l s] |]; [| reflexivity].
    specialize (Hs _ eq_refl). simpl in Hs. subst s. reflexivity. }
  rewrite E. unfold Persist.mount, Persist.step. simpl.
  unfold Persist.restore_bookmark. simpl.
  apply String.eqb_neq in Hi. rewrite Hi. reflexivity.
Qed.

Lemma saved_bookmark_is_restored_witness :
  Persist.sourceFaces
    (Persist.st (Persist.step Persist.LoadSettles
       (Persist.mount no_faults
          (db_after (saveSourceFaceToStorage 1 no_faults "img" Sample.analysis None)))))
  = ["img"].
Proof.
  rewrite (saved_bookmark_is_restored 1 "img" Sample.analysis None).
  - reflexivity.
  - discriminate.
  - discriminate.
Defined.
End BookmarkFacts.

(* ================================================================== *)
(** ** Batch pipeline: further properties *)

Module BatchMoreFacts.
Import Batch BatchSpec MoreSpec BatchFacts.

(** *** One call for each item of the worklist, in order *)

Lemma loop_progress a0 r ids a done :
  cl_sourceFaces r = sourceFaces a0 -> cl_targets r = targets a0 ->
  cl_settings r = settings a0 ->
  idle_ids (targets a0) = done ++ ids ->
  calls a = calls a0 ++ flat_map (call_for a0) done ->
  progress a0 (loop r ids a).
Proof.
  intros Hf Ht Hs. revert a done. induction ids as [| i rest IH]; intros a done HW Hc.
  - rewrite loop_nil. unfold progress. simpl. repeat split; auto.
    exists done. now split.
  - assert (HW' : idle_ids (targets a0) = (done ++ [i]) ++ rest).
    { now rewrite <- app_assoc. }
    destruct (targetUrl (cl_targets r) i) as [url |] eqn:E.
    + rewrite (loop_dispatch _ _ _ _ _ E). unfold progress. simpl.
      repeat split; auto; [discriminate |].
      exists (done ++ [i]). split; [exact HW' |].
      rewrite Hc, flat_map_app, app_assoc. simpl. unfold call_for at 3.
      rewrite <- Ht, E, Hf, Hs. now rewrite app_nil_r.
    + rewrite (loop_skip _ _ _ _ E). apply (IH _ (done ++ [i]) HW').
      simpl. rewrite Hc, flat_map_app. simpl. unfold call_for at 3.
      rewrite <- Ht, E. now rewrite !app_nil_r.
Qed.

Lemma step_progress a0 e ar : progress a0 ar -> progress a0 (step e ar).
Proof.
  destruct ar as [a r]. intros H.
  pose proof H as (Hf & Ht & Hs & Hr & done & HW & Hc). simpl in *.
  destruct e as [u | w].
  - unfold progress. simpl. repeat split; auto. exists done. split; [exact HW |].
    destruct u; exact Hc.
  - cbn [step]. unfold resume.
    destruct w as [o |]; destruct (pc r) as [i | |] eqn:Hp;
      try (destruct o; exact H); try exact H.
    + destruct o as [u | e]; unfold progress; simpl;
        (repeat split; auto; [discriminate | exists done; now split]).
    + now apply (loop_progress a0 r (todo r) a done).
Qed.

Lemma exec_progress a0 evs ar : progress a0 ar -> progress a0 (exec evs ar).
Proof.
  revert ar. induction evs as [| e evs IH]; intros ar H; simpl; [exact H |].
  apply IH, step_progress, H.
Qed.

Lemma start_progress a0 :
  sourceFaces a0 <> [] -> progress a0 (runBatchProcessor a0).
Proof.
  intros Hs. unfold runBatchProcessor.
  set (r0 := mkRun (sourceFaces a0) (targets a0) (settings a0) [] Returned).
  assert (H : progress a0 (loop r0 (idle_ids (targets a0))
                                (setIsProcessingBatch true a0))).
  { apply (loop_progress a0 r0 _ _ []); try reflexivity. simpl.
    now rewrite app_nil_r. }
  clearbody r0. destruct (sourceFaces a0); [contradiction | exact H].
Qed.

(** X18. A run calls the engine once for each item of its worklist that
    has an address, in the order of the worklist, and never twice for one
    position: at every moment the calls made are those for a front part of
    the worklist, and when the run has returned they are those for the
    whole worklist, whatever the user did meanwhile and however the swaps
    ended. *)
Theorem one_call_per_worklist_item (a0 : App) (evs : list Event) :
  sourceFaces a0 <> [] ->
  let a' := fst (exec evs (runBatchProcessor a0)) in
  let r' := snd (exec evs (runBatchProcessor a0)) in
  (exists done,
      idle_ids (targets a0) = done ++ todo r' /\
      calls a' = calls a0 ++ flat_map (call_for a0) done) /\
  (pc r' = Returned ->
   calls a' = calls a0 ++ flat_map (call_for a0) (idle_ids (targets a0))).
Proof.
  intros Hs a' r'.
  destruct (exec_progress a0 evs _ (start_progress a0 Hs))
    as (_ & _ & _ & Hr & done & HW & Hc).
  fold a' in Hc. fold r' in Hr, HW. split.
  - exists done. now split.
  - intros Hp. rewrite HW, (Hr Hp), app_nil_r. exact Hc.
Qed.

Lemma one_call_per_worklist_item_witness :
  calls (fst (exec [Wakes (SwapSettles (Thrown OtherValue)); Wakes PauseEnds;
                    User (RemoveTarget "a");
                    Wakes (SwapSettles (Generated "data:b")); Wakes PauseEnds]
                   (runBatchProcessor Sample.app)))
  = [mkCall ["s"] "ua" DEFAULT_SWAP_SETTINGS;
     mkCall ["s"] "ub" DEFAULT_SWAP_SETTINGS].
Proof.
  apply (proj2 (one_call_per_worklist_item Sample.app
                  [Wakes (SwapSettles (Thrown OtherValue)); Wakes PauseEnds;
                   User (RemoveTarget "a");
                   Wakes (SwapSettles (Generated "data:b")); Wakes PauseEnds]
                  ltac:(discriminate))).
  reflexivity.
Defined.

(** *** What a run never touches *)

Lemma identity_on_id i g t :
  (forall x, identity (g x) = identity x) -> identity (on_id i g t) = identity t.
Proof. intros Hg. unfold on_id. destruct (String.eqb _ _); auto. Qed.

Lemma map_identity_on_id i g ts :
  (forall x, identity (g x) = identity x) ->
  map identity (map (on_id i g) ts) = map identity ts.
Proof.
  intros Hg. rewrite map_map. apply map_ext. intros t. now apply identity_on_id.
Qed.

Lemma loop_identity r ids a :
  map identity (targets (fst (loop r ids a))) = map identity (targets a).
Proof.
  revert a. induction ids as [| i rest IH]; intros a; [reflexivity |].
  simpl. destruct (targetUrl (cl_targets r) i).
  - simpl. now apply map_identity_on_id.
  - rewrite IH. simpl. now apply map_identity_on_id.
Qed.

Lemma resume_identity w a r :
  map identity (targets (fst (resume w (a, r)))) = map identity (targets a).
Proof.
  unfold resume. destruct w as [[u | e] |]; destruct (pc r); simpl;
    try reflexivity; try (now apply map_identity_on_id).
  apply loop_identity.
Qed.

Lemma filter_by_id_identity (p : string -> bool) (ts tu : list ProcessedImage) :
  map identity ts = map identity tu ->
  map identity (filter (fun t => p (Img.id t)) ts)
  = map identity (filter (fun t => p (Img.id t)) tu).
Proof.
  revert tu. induction ts as [| t ts IH]; intros [| u tu] H;
    try discriminate; [reflexivity |].
  injection H as Hi Ho Ha H.
  cbn [filter]. rewrite Hi.
  destruct (p (Img.id u)); cbn [map]; [f_equal |]; try now apply IH.
  unfold identity. congruence.
Qed.

Lemma exec_identity evs ar tu :
  map identity (targets (fst ar)) = map identity tu ->
  map identity (targets (fst (exec evs ar))) = map identity (user_only evs tu).
Proof.
  revert ar tu. induction evs as [| e evs IH]; intros [a r] tu H; [exact H |].
  change (exec (e :: evs) (a, r)) with (exec evs (step e (a, r))).
  destruct e as [u | w]; cbn [user_only]; apply IH.
  - cbn [step fst snd]. simpl in H.
    destruct u as [i url | i | ed]; simpl.
    + now rewrite !map_app, H.
    + now apply (filter_by_id_identity (fun x => negb (String.eqb x i))).
    + exact H.
  - cbn [step]. rewrite resume_identity. exact H.
Qed.

(** X19. A run changes nothing but status, result and error.  Whatever
    happens during a run, the collection holds the items the user's own
    additions and removals would have left, in the same order, each with
    its identifier, its original address and its analysis field. *)
Theorem run_keeps_items (a : App) (evs : list Event) :
  map identity (targets (fst (exec evs (runBatchProcessor a))))
  = map identity (user_only evs (targets a)).
Proof.
  apply exec_identity. unfold runBatchProcessor.
  destruct (sourceFaces a); [reflexivity |]. now rewrite loop_identity.
Qed.

(** *** The busy flag *)

Lemma loop_flag r ids a :
  isProcessingBatch a = true ->
  (pc (snd (loop r ids a)) = Returned /\
   isProcessingBatch (fst (loop r ids a)) = false) \/
  (pc (snd (loop r ids a)) <> Returned /\
   isProcessingBatch (fst (loop r ids a)) = true).
Proof.
  revert a. induction ids as [| i rest IH]; intros a H; simpl.
  - now left.
  - destruct (targetUrl (cl_targets r) i).
    + right. simpl. split; [discriminate | exact H].
    + apply IH. exact H.
Qed.

(** X20. The busy flag follows the run.  With at least one source image,
    from the click on, [isProcessingBatch] is [true] as long as the run is
    suspended on a swap or a pause, and [false] once it has returned,
    whatever the user does to targets and settings meanwhile. *)
Theorem busy_flag_follows_run (a : App) (evs : list Event) :
  sourceFaces a <> [] ->
  let a' := fst (exec evs (runBatchProcessor a)) in
  let r' := snd (exec evs (runBatchProcessor a)) in
  (pc r' = Returned /\ isProcessingBatch a' = false) \/
  (pc r' <> Returned /\ isProcessingBatch a' = true).
Proof.
  intros Hs. cbv zeta.
  assert (G : forall evs ar,
             ((pc (snd ar) = Returned /\ isProcessingBatch (fst ar) = false) \/
              (pc (snd ar) <> Returned /\ isProcessingBatch (fst ar) = true)) ->
             (pc (snd (exec evs ar)) = Returned /\
              isProcessingBatch (fst (exec evs ar)) = false) \/
             (pc (snd (exec evs ar)) <> Returned /\
              isProcessingBatch (fst (exec evs ar)) = true)).
  { clear. induction evs as [| e evs IH]; intros [a r] H; [exact H |].
    change (exec (e :: evs) (a, r)) with (exec evs (step e (a, r))). apply IH.
    cbn [fst snd] in H. destruct e as [u | w]; cbn [step fst snd].
    - destruct u; exact H.
    - assert (Hbusy : pc r <> Returned -> isProcessingBatch a = true).
      { intros Hn. destruct H as [[C _] | [_ H]]; [contradiction | exact H]. }
      unfold resume.
      destruct w as [[u | e] |]; destruct (pc r) eqn:Hp; simpl;
        rewrite ?Hp; try exact H.
      + right. split; [discriminate | apply Hbusy; discriminate].
      + right. split; [discriminate | apply Hbusy; discriminate].
      + apply loop_flag. apply Hbusy. discriminate. }
  apply G. unfold runBatchProcessor.
  destruct (sourceFaces a); [contradiction |]. now apply loop_flag.
Qed.

Lemma busy_flag_follows_run_witness :
  isProcessingBatch
    (fst (exec [Wakes (SwapSettles (Generated "data:a")); User (RemoveTarget "b")]
               (runBatchProcessor Sample.app))) = true.
Proof.
  destruct (busy_flag_follows_run Sample.app
              [Wakes (SwapSettles (Generated "data:a")); User (RemoveTarget "b")]
              ltac:(discriminate)) as [[C _] | [_ H]].
  - discriminate C.
  - exact H.
Defined.

(** *** Each item gets the outcome of its own swap *)

Lemma user_only_rounds os ts : user_only (rounds os) ts = ts.
Proof. induction os as [| o os IH]; simpl; auto. Qed.

Lemma rounds_add_nothing os i url : ~ In (User (AddTarget i url)) (rounds os).
Proof.
  induction os as [| o os IH]; simpl; [tauto |].
  intros [C | [C | C]]; try discriminate. contradiction.
Qed.

Lemma round_from_swap o a r i :
  pc r = AwaitSwap i ->
  exec [Wakes (SwapSettles o); Wakes PauseEnds] (a, r)
  = loop (at_pc r (todo r) AwaitPause) (todo r)
         (setTargets (map (on_id i (outcome_update o))) a).
Proof. intros Hp. simpl. destruct o; rewrite Hp; reflexivity. Qed.

Lemma outcome_update_keeps_id o : keeps_id (outcome_update o).
Proof. destruct o; intros t; reflexivity. Qed.

Lemma blank_shows o t : blank t -> shows o (outcome_update o t).
Proof. intros (Hp & He & _). destruct o; simpl; auto. Qed.

Lemma rounds_results os :
  forall rest i o a r,
    pc r = AwaitSwap i -> todo r = rest -> NoDup (i :: rest) ->
    List.length os = List.length rest ->
    (forall j, In j rest -> exists url, targetUrl (cl_targets r) j = Some url) ->
    (forall t, In t (targets a) -> In (Img.id t) (i :: rest) -> blank t) ->
    forall k j oj t,
      nth_error (i :: rest) k = Some j -> nth_error (o :: os) k = Some oj ->
      In t (targets (fst (exec (rounds (o :: os)) (a, r)))) ->
      Img.id t = j -> shows oj t.
Proof.
  induction os as [| o' os IH];
    intros rest i o a r Hp Ht Hnd Hlen Hurl Hb k j oj t Hk Ho Hin Hid.
  - destruct rest; [| discriminate].
    change (rounds [o]) with [Wakes (SwapSettles o); Wakes PauseEnds] in Hin.
    rewrite (round_from_swap o a r i Hp), Ht, loop_nil in Hin. simpl in Hin.
    destruct k as [| [| k]]; simpl in Hk, Ho; try discriminate.
    injection Hk as <-. injection Ho as <-.
    apply in_map_on_id in Hin as (t0 & Ht0 & [[E ->] | [E ->]]).
    + apply blank_shows, Hb; [assumption | now left].
    + contradiction.
  - destruct rest as [| j' rest']; [discriminate |].
    change (rounds (o :: o' :: os))
      with ([Wakes (SwapSettles o); Wakes PauseEnds] ++ rounds (o' :: os)) in Hin.
    rewrite exec_app, (round_from_swap o a r i Hp), Ht in Hin.
    destruct (Hurl j' (or_introl eq_refl)) as (url & Hu).
    rewrite (loop_dispatch (at_pc r (j' :: rest') AwaitPause) j' rest' _ url Hu) in Hin.
    set (a1 := setTargets (map (on_id i (outcome_update o))) a) in *.
    set (a2 := dispatch _ (setTargets (map (on_id j' (Img.with_status processing))) a1)) in *.
    set (r2 := at_pc (at_pc r (j' :: rest') AwaitPause) rest' (AwaitSwap j')) in *.
    assert (Hni : ~ In i (j' :: rest')) by now inversion Hnd.
    assert (Hnd' : NoDup (j' :: rest')) by now inversion Hnd.
    assert (Hitems : forall t2, In t2 (targets a2) ->
              exists t0, In t0 (targets a) /\ Img.id t0 = Img.id t2 /\
                ((Img.id t0 = i /\ t2 = outcome_update o t0) \/
                 (Img.id t0 <> i /\
                  (t2 = t0 \/ t2 = Img.with_status processing t0)))).
    { intros t2 H2. simpl in H2.
      apply in_map_on_id in H2 as (t1 & H1 & Hc2).
      simpl in H1. apply in_map_on_id in H1 as (t0 & H0 & [[E ->] | [E ->]]).
      - exists t0. split; [assumption |].
        assert (E1 : Img.id (outcome_update o t0) = i)
          by now rewrite outcome_update_keeps_id.
        destruct Hc2 as [[E2 ->] | [E2 ->]].
        + exfalso. apply Hni. left. congruence.
        + split; [now rewrite outcome_update_keeps_id | left; now split].
      - exists t0. split; [assumption |].
        destruct Hc2 as [[E2 ->] | [E2 ->]]; (split; [reflexivity |]);
          right; split; auto. }
    destruct k as [| k']; simpl in Hk, Ho.
    + injection Hk as <-. injection Ho as <-.
      assert (Hri : run_inv (j' :: rest') (targets a2) (a2, r2)).
      { split; [| split]; simpl.
        - intros x Hx. split; [exact Hx |].
          destruct Hx as [<- | Hx]; [now exists url |].
          apply Hurl. now right.
        - intros x _ Hx Hn. contradiction.
        - reflexivity. }
      pose proof (exec_run_inv _ (rounds (o' :: os)) _ _ Hri) as (_ & _ & F).
      { intros x u C. exfalso. eapply rounds_add_nothing, C. }
      rewrite user_only_rounds in F.
      assert (Hout : outside (j' :: rest') t = true).
      { apply outside_spec. now rewrite Hid. }
      assert (Hin2 : In t (targets a2)).
      { assert (G : In t (filter (outside (j' :: rest')) (targets a2))).
        { rewrite <- F. apply filter_In. now split. }
        now apply filter_In in G. }
      destruct (Hitems t Hin2) as (t0 & H0 & E0 & [[Ei ->] | [Ei _]]).
      * apply blank_shows, Hb; [assumption | now left].
      * congruence.
    + apply (IH rest' j' o' a2 r2) with (k := k') (j := j); auto.
      * intros x Hx. apply Hurl. now right.
      * intros t2 H2 Hid2.
        destruct (Hitems t2 H2) as (t0 & H0 & E0 & [[Ei _] | [Ei Hc]]).
        -- exfalso. apply Hni. congruence.
        -- assert (Hb0 : blank t0).
           { apply Hb; [assumption |]. right. now rewrite E0. }
           destruct Hc as [-> | ->]; [exact Hb0 | now apply processing_blank].
Qed.

Lemma map_identity_ids (l1 l2 : list ProcessedImage) :
  map identity l1 = map identity l2 -> map Img.id l1 = map Img.id l2.
Proof.
  intros H. apply (f_equal (map (fun x => fst (fst x)))) in H.
  now rewrite !map_map in H.
Qed.

Lemma run_results (a : App) (os : list SwapOutcome) :
  sourceFaces a <> [] ->
  NoDup (idle_ids (targets a)) ->
  (forall t, In t (targets a) -> In (Img.id t) (idle_ids (targets a)) ->
             Img.originalUrl t <> "" /\ blank t) ->
  List.length os = List.length (idle_ids (targets a)) ->
  forall k i o t,
    nth_error (idle_ids (targets a)) k = Some i -> nth_error os k = Some o ->
    In t (targets (fst (exec (rounds os) (runBatchProcessor a)))) ->
    Img.id t = i -> shows o t.
Proof.
  intros Hs Hnd Hgood Hlen k i o t Hk Ho.
  assert (Hurl : forall j, In j (idle_ids (targets a)) ->
                   exists url, targetUrl (targets a) j = Some url).
  { intros j Hj. apply targetUrl_found; [now apply idle_ids_incl |].
    intros x Hx E. apply Hgood; [assumption | now rewrite E]. }
  unfold runBatchProcessor.
  set (r0 := mkRun (sourceFaces a) (targets a) (settings a) [] Returned).
  assert (Hr0 : cl_targets r0 = targets a) by reflexivity.
  clearbody r0. destruct (sourceFaces a) as [| s0 ss]; [contradiction |].
  destruct (idle_ids (targets a)) as [| i0 rest] eqn:EW.
  { destruct k; discriminate. }
  destruct os as [| o0 os]; [discriminate |].
  destruct (Hurl i0 (or_introl eq_refl)) as (url & Hu).
  rewrite <- Hr0 in Hu. rewrite (loop_dispatch r0 i0 rest _ url Hu).
  intros Hin Hid.
  refine (rounds_results os rest i0 o0 _ _ _ _ Hnd _ _ _ k i o t Hk Ho Hin Hid).
  - reflexivity.
  - reflexivity.
  - simpl in Hlen. lia.
  - intros j Hj. simpl. rewrite Hr0. apply Hurl. now right.
  - intros x Hx Hidx. simpl in Hx.
    apply in_map_on_id in Hx as (x0 & Hx0 & [[E ->] | [E ->]]).
    + apply processing_blank. apply Hgood; [assumption |]. rewrite E. now left.
    + now apply Hgood.
Qed.

(** X21. Each item gets the outcome of its own swap.  Take a run over
    items with distinct identifiers, non-empty addresses and no result or
    error yet, with at least one source image, and let the swaps settle in
    turn.  Then the collection holds the same identifiers as before, and the
    item at position [k] of the worklist is [completed] with the image the
    engine returned for call [k], or [failed] with the message of the error
    call [k] threw (["Error"] when it threw something that is no [Error]). *)
Theorem each_item_shows_its_outcome (a : App) (os : list SwapOutcome) :
  sourceFaces a <> [] ->
  NoDup (idle_ids (targets a)) ->
  (forall t, In t (targets a) -> In (Img.id t) (idle_ids (targets a)) ->
             Img.originalUrl t <> "" /\ blank t) ->
  List.length os = List.length (idle_ids (targets a)) ->
  let a' := fst (exec (rounds os) (runBatchProcessor a)) in
  map Img.id (targets a') = map Img.id (targets a) /\
  forall k i o t,
    nth_error (idle_ids (targets a)) k = Some i -> nth_error os k = Some o ->
    In t (targets a') -> Img.id t = i -> shows o t.
Proof.
  intros Hs Hnd Hgood Hlen a'. split.
  - apply map_identity_ids. unfold a'.
    transitivity (map identity (user_only (rounds os) (targets a)));
      [| now rewrite user_only_rounds].
    apply exec_identity. unfold runBatchProcessor.
    destruct (sourceFaces a); [reflexivity |]. now rewrite loop_identity.
  - now apply run_results.
Qed.

Lemma each_item_shows_its_outcome_witness :
  let a := mkApp ["s"] [Img.fresh "1" "u1"; Img.fresh "2" "u2"; Img.fresh "3" "u3"]
                 DEFAULT_SWAP_SETTINGS false [] in
  let os := [Generated "data:1"; Thrown (ErrorObject "No image generated in response");
             Generated "data:3"] in
  map Img.status (targets (fst (exec (rounds os) (runBatchProcessor a))))
  = [completed; failed; completed] /\
  shows (Thrown (ErrorObject "No image generated in response"))
        (Img.with_failed "No image generated in response"
           (Img.with_status processing (Img.fresh "2" "u2"))).
Proof.
  intros a os. split; [reflexivity |].
  apply (proj2 (each_item_shows_its_outcome a os
                  ltac:(discriminate)
                  ltac:(simpl; repeat constructor; simpl; intuition discriminate)
                  ltac:(intros x [<- | [<- | [<- | []]]] _;
                        (split; [discriminate | unfold blank; simpl; auto]))
                  eq_refl)
           1 "2" _ _ eq_refl eq_refl).
  - simpl. right. left. reflexivity.
  - reflexivity.
Defined.

(** X22. Without an API key nothing is swapped and every item says so.
    Under the conditions of X21, when [process.env.API_KEY] is missing or
    empty, whatever the service would answer, every item of the worklist
    ends [failed], with the error "API Key not found in environment
    variables" and no result. *)
Theorem missing_api_key_fails_every_item
    (apiKey : option string) (replies : list Gemini.Reply) (a : App) :
  Gemini.truthy apiKey = false ->
  sourceFaces a <> [] ->
  NoDup (idle_ids (targets a)) ->
  (forall t, In t (targets a) -> In (Img.id t) (idle_ids (targets a)) ->
             Img.originalUrl t <> "" /\ blank t) ->
  List.length replies = List.length (idle_ids (targets a)) ->
  let os := map (Gemini.performFaceSwap apiKey) replies in
  forall t, In t (targets (fst (exec (rounds os) (runBatchProcessor a)))) ->
    In (Img.id t) (idle_ids (targets a)) ->
    Img.status t = failed /\
    Img.error t = Some "API Key not found in environment variables" /\
    Img.processedUrl t = None.
Proof.
  intros Hk Hs Hnd Hgood Hlen os t Hin Hw.
  apply In_nth_error in Hw as (k & Hk').
  assert (Hlt : k < List.length replies).
  { rewrite Hlen. apply nth_error_Some. congruence. }
  destruct (nth_error replies k) as [reply |] eqn:Er;
    [| apply nth_error_None in Er; lia].
  assert (Ho : nth_error os k
               = Some (Thrown (ErrorObject "API Key not found in environment variables"))).
  { unfold os. rewrite nth_error_map, Er. simpl.
    unfold Gemini.performFaceSwap. now rewrite Hk. }
  assert (Hl : List.length os = List.length (idle_ids (targets a))).
  { unfold os. now rewrite length_map. }
  exact (run_results a os Hs Hnd Hgood Hl k _ _ t Hk' Ho Hin eq_refl).
Qed.

Lemma missing_api_key_fails_every_item_witness :
  let a := mkApp ["s"] [Img.fresh "1" "u1"; Img.fresh "2" "u2"]
                 DEFAULT_SWAP_SETTINGS false [] in
  let os := map (Gemini.performFaceSwap (Some ""))
                [Gemini.Responded None; Gemini.Failed OtherValue] in
  let t := Img.with_failed "API Key not found in environment variables"
             (Img.with_status processing (Img.fresh "2" "u2")) in
  nth_error (targets (fst (exec (rounds os) (runBatchProcessor a)))) 1 = Some t /\
  Img.status t = failed /\
  Img.error t = Some "API Key not found in environment variables" /\
  Img.processedUrl t = None.
Proof.
  intros a os t. split; [reflexivity |].
  apply (missing_api_key_fails_every_item (Some "")
           [Gemini.Responded None; Gemini.Failed OtherValue] a
           eq_refl
           ltac:(discriminate)
           ltac:(simpl; repeat constructor; simpl; intuition discriminate)
           ltac:(intros x [<- | [<- | []]] _;
                 (split; [discriminate | unfold blank; simpl; auto]))
           eq_refl t).
  - simpl. right. left. reflexivity.
  - simpl. right. left. reflexivity.
Defined.
End BatchMoreFacts.
